(** * Lorl Server Host (server-node.js): room registry, sessions and relay

    A shallow embedding of the WebSocket relay of [server-node.js].  The
    single-threaded event loop is modelled by explicit state passing: every
    handler ([on_connection], [on_message], [on_close], [on_error]) is a
    function from the server state to the next state together with the list
    of frames it delivered, in the order they were sent. *)

From stdpp Require Import base option list gmap strings pretty.
From Stdlib Require Import ZArith Lia.

Local Open Scope string_scope.
Local Open Scope Z_scope.
Local Open Scope list_scope.
Set Warnings "-register-all".

(** ** JavaScript values *)

(** Primitive values as they come out of [JSON.parse], plus [undefined] for a
    field that is absent.  Numbers are restricted to integers.  On these
    values [===] and the key equality of [Map] are plain equality. *)
Inductive prim : Type :=
  | PUndefined
  | PNull
  | PBool (b : bool)
  | PNum (n : Z)
  | PStr (s : string).

Global Instance prim_eq_dec : EqDecision prim.
Proof. solve_decision. Defined.

(** Parsed JSON: a primitive, an array or an object (own properties as a
    finite map from property name to value). *)
Inductive jsval : Type :=
  | JPrim (p : prim)
  | JArr (xs : list jsval)
  | JObj (o : gmap string jsval).

Definition jundefined : jsval := JPrim PUndefined.
Definition jstr (s : string) : jsval := JPrim (PStr s).
Definition jnum (n : Z) : jsval := JPrim (PNum n).

(** [ToBoolean]. *)
Definition prim_truthy (p : prim) : bool :=
  match p with
  | PUndefined | PNull => false
  | PBool b => b
  | PNum n => negb (n =? 0)
  | PStr s => negb (String.eqb s "")
  end.

Definition js_truthy (v : jsval) : bool :=
  match v with
  | JPrim p => prim_truthy p
  | JArr _ | JObj _ => true
  end.

(** [a || b]. *)
Definition js_or (a b : jsval) : jsval := if js_truthy a then a else b.

(** Whether [ToString] returns, as a template literal [`${v}`] needs.  It does
    on every primitive.  On an array it joins the conversions of the elements
    (an element [null] gives the empty string).  On an object it calls
    [Object.prototype.toString], unless the object has an own property
    [toString]: parsed from JSON that property is not callable, neither is an
    own [valueOf], and the inherited [valueOf] returns the object, so that
    [ToString] throws a TypeError. *)
Fixpoint printable (v : jsval) : bool :=
  match v with
  | JPrim _ => true
  | JArr xs => forallb printable xs
  | JObj o => match o !! "toString" with Some _ => false | None => true end
  end.

(** Own enumerable properties copied by an object spread [{...v}]: those of
    an object, the indices of an array, the indices of a string (one
    character per index), nothing for the other primitives. *)
Definition index_props (xs : list jsval) : gmap string jsval :=
  list_to_map (imap (λ i x, (pretty i, x)) xs).

Fixpoint chars (s : string) : list jsval :=
  match s with
  | EmptyString => []
  | String a s' => jstr (String a EmptyString) :: chars s'
  end.

Definition spread_props (v : jsval) : gmap string jsval :=
  match v with
  | JObj o => o
  | JArr xs => index_props xs
  | JPrim (PStr s) => index_props (chars s)
  | JPrim _ => ∅
  end.

(** [{...a, ...v}] for an object [a]: the properties of [v] overwrite. *)
Definition spread_merge (a : gmap string jsval) (v : jsval) : gmap string jsval :=
  spread_props v ∪ a.

(** ** The built-in [Map]

    Entries in insertion order, one per key.  [set] on a present key replaces
    the value in place, on a new key appends; [delete] removes the entry. *)
Module JSMap.
Section JSMap.
Context {K V : Type} `{EqDecision K}.

Fixpoint get (k : K) (m : list (K * V)) : option V :=
  match m with
  | [] => None
  | (k', v) :: m' => if decide (k' = k) then Some v else get k m'
  end.

Fixpoint set (k : K) (v : V) (m : list (K * V)) : list (K * V) :=
  match m with
  | [] => [(k, v)]
  | (k', v') :: m' =>
      if decide (k' = k) then (k, v) :: m' else (k', v') :: set k v m'
  end.

Definition delete (k : K) (m : list (K * V)) : list (K * V) :=
  filter (λ kv, kv.1 ≠ k) m.

Definition size (m : list (K * V)) : Z := Z.of_nat (length m).

Definition keys (m : list (K * V)) : list K := m.*1.
End JSMap.
End JSMap.

(** ** Server state *)

(** [ws.readyState]. *)
Inductive ReadyState : Type := CONNECTING | OPEN | CLOSING | CLOSED.

Global Instance ReadyState_eq_dec : EqDecision ReadyState.
Proof. solve_decision. Defined.

(** A room entry [{ ws, username, data }].  [ws] is the index of the
    connection whose socket the entry holds. *)
Record Session : Type := mkSession {
  ws : nat;
  username : jsval;
  data : gmap string jsval
}.

(** A room: [Map(playerId -> session)]. *)
Abbreviation Room := (list (prim * Session)).

(** What the closure created by [wss.on('connection')] captures: the room
    object (a reference into the heap of rooms), [roomKey], the mutable
    [playerId], and the socket's [readyState]. *)
Record Connection : Type := mkConnection {
  room : nat;
  roomKey : string;
  playerId : prim;
  readyState : ReadyState
}.

(** The room objects ever allocated ([heap]), the registry [rooms] from key to
    room object, and the connections accepted so far.  A room object deleted
    from the registry stays reachable from the closures that captured it. *)
Record State : Type := mkState {
  heap : list Room;
  rooms : list (string * nat);
  conns : list Connection
}.

Definition initial : State := mkState [] [] [].

(** Frames the server sends. *)
Record PlayerEntry : Type := mkPlayerEntry {
  entry_id : prim;
  entry_username : jsval;
  entry_data : gmap string jsval
}.

Inductive OutMsg : Type :=
  | MsgError (message : string)
  | MsgRoomState (players : list PlayerEntry)
  | MsgPlayerJoined (pid : prim) (uname : jsval)
  | MsgStateUpdate (pid : prim) (uname : jsval) (delta : jsval)
  | MsgCustom (pid : prim) (event : jsval) (payload : jsval)
  | MsgPlayerLeft (pid : prim) (uname : jsval).

(** A frame delivered to the socket of a connection. *)
Abbreviation Frame := (nat * OutMsg)%type.

(** What [ws.on('message')] receives: a text that [JSON.parse] rejects, the
    literal [null], or a value dispatched on its [type] field, with the fields
    the handler reads.  A [playerId] is a primitive (an object or an array as
    id, which [Map] keys by reference, is left out). *)
Inductive Inbound : Type :=
  | Unparsable
  | ParsedNull
  | Join (msg_playerId : prim) (msg_username : jsval)
  | StateUpdate (msg_data : jsval)
  | Custom (msg_event : jsval) (msg_data : jsval)
  | OtherType.

Definition deref (s : State) (r : nat) : Room := default [] (heap s !! r).

Definition store (s : State) (r : nat) (rm : Room) : State :=
  mkState (<[r := rm]> (heap s)) (rooms s) (conns s).

Definition set_playerId (s : State) (c : nat) (p : prim) : State :=
  mkState (heap s) (rooms s)
    (alter (λ cn, mkConnection (room cn) (roomKey cn) p (readyState cn)) c (conns s)).

Definition set_readyState (s : State) (c : nat) (f : ReadyState → ReadyState) : State :=
  mkState (heap s) (rooms s)
    (alter (λ cn, mkConnection (room cn) (roomKey cn) (playerId cn) (f (readyState cn)))
       c (conns s)).

Definition is_open (s : State) (c : nat) : bool :=
  bool_decide (readyState <$> conns s !! c = Some OPEN).

(** [ws.close()]: an open socket starts its closing handshake. *)
Definition closing (st : ReadyState) : ReadyState :=
  match st with OPEN => CLOSING | _ => st end.

Definition ws_close (s : State) (c : nat) : State := set_readyState s c closing.

(** ** The functions of server-node.js *)

Definition getRoom (s : State) (gameId roomId : string) : State * nat * string :=
  let key := gameId +:+ "__" +:+ roomId in
  match JSMap.get key (rooms s) with
  | Some r => (s, r, key)
  | None => (* [!rooms.has(key)]: a fresh empty room is registered *)
      let r := length (heap s) in
      (mkState (heap s ++ [[]]) (JSMap.set key r (rooms s)) (conns s), r, key)
  end.

(** [rooms.forEach] visits every entry once; deleting the entry being
    visited does not disturb the iteration. *)
Definition cleanEmpty (s : State) : State :=
  mkState (heap s)
    (foldl (λ acc kr, if JSMap.size (deref s kr.2) =? 0 then JSMap.delete kr.1 acc else acc)
       (rooms s) (rooms s))
    (conns s).

Definition sendTo (s : State) (c : nat) (msg : OutMsg) : list Frame :=
  if is_open s c then [(c, msg)] else [].

Definition broadcast (s : State) (rm : Room) (msg : OutMsg) (excludeId : prim)
  : list Frame :=
  flat_map (λ e, if bool_decide (e.1 ≠ excludeId) && is_open s (ws e.2)
                 then [(ws e.2, msg)] else []) rm.

(** The HTTP status: [rooms.size] and the sum of the room sizes. *)
Definition status (s : State) : Z * Z :=
  (JSMap.size (rooms s),
   foldl (λ a kr, a + JSMap.size (deref s kr.2)) 0 (rooms s)).

(** [url.searchParams.get(name) || dflt]. *)
Definition param_or (p : option string) (dflt : string) : string :=
  match p with
  | Some v => if String.eqb v "" then dflt else v
  | None => dflt
  end.

(** [wss.on('connection')] for a request target that [new URL] accepts, with
    its [game] and [room] query parameters.  A request target that [new URL]
    rejects is the event [EvBadUrl] below. *)
Definition on_connection (s : State) (game room_ : option string) : State :=
  let gameId := param_or game "unknown" in
  let roomId := param_or room_ "default" in
  let '(s1, r, key) := getRoom s gameId roomId in
  mkState (heap s1) (rooms s1) (conns s1 ++ [mkConnection r key PNull OPEN]).

Definition playersList (rm : Room) : list PlayerEntry :=
  map (λ e, mkPlayerEntry e.1 (username e.2) (data e.2)) rm.

Section Server.
(** [parseInt(process.env.MAX_PLAYERS || '50')]; [None] stands for NaN. *)
Variable MAX_PLAYERS : option Z.

(** [size >= MAX_PLAYERS]. *)
Definition at_capacity (size : Z) : bool :=
  match MAX_PLAYERS with
  | Some m => m <=? size
  | None => false
  end.

(** [ws.on('message')].  [None] is an exception that escapes the handler:
    [msg.type] on the literal [null], and the [console.log] that ends an
    accepted join, whose template literal converts [username] to a string
    after the session is stored and the frames are sent. *)
Definition on_message (s : State) (c : nat) (raw : Inbound)
  : option (State * list Frame) :=
  match conns s !! c with
  | None => Some (s, [])
  | Some cn =>
      match raw with
      | Unparsable => Some (s, [])
      | ParsedNull => None
      | OtherType => Some (s, [])
      | Join pid uname =>
          let s1 := set_playerId s c pid in
          let username := js_or uname (jstr "Player") in
          let rm := deref s1 (room cn) in
          if at_capacity (JSMap.size rm) then
            let out := sendTo s1 c (MsgError "Room is full") in
            Some (ws_close s1 c, out)
          else
            let out1 := sendTo s1 c (MsgRoomState (playersList rm)) in
            let rm' := JSMap.set pid (mkSession c username ∅) rm in
            let s2 := store s1 (room cn) rm' in
            let out2 := broadcast s2 rm' (MsgPlayerJoined pid username) pid in
            if printable username then Some (s2, out1 ++ out2) else None
      | StateUpdate d =>
          let rm := deref s (room cn) in
          if prim_truthy (playerId cn) then
            match JSMap.get (playerId cn) rm with
            | None => Some (s, [])
            | Some session =>
                let session' :=
                  mkSession (ws session) (username session)
                    (spread_merge (data session) d) in
                let rm' := JSMap.set (playerId cn) session' rm in
                let s1 := store s (room cn) rm' in
                Some (s1, broadcast s1 rm'
                            (MsgStateUpdate (playerId cn) (username session) d)
                            (playerId cn))
            end
          else Some (s, [])
      | Custom ev d =>
          let rm := deref s (room cn) in
          Some (s, broadcast s rm (MsgCustom (playerId cn) ev d) (playerId cn))
      end
  end.
End Server.

(** [ws.on('close')].  [broadcast] is given [null] as the id to exclude.  The
    [console.log] of the handler prints the username of a stored session,
    which the join that stored it has printed (see [reachable_printed]). *)
Definition on_close (s : State) (c : nat) : State * list Frame :=
  match conns s !! c with
  | None => (s, [])
  | Some cn =>
      if negb (prim_truthy (playerId cn)) then (s, [])
      else
        let rm := deref s (room cn) in
        match JSMap.get (playerId cn) rm with
        | Some session =>
            let rm' := JSMap.delete (playerId cn) rm in
            let s1 := store s (room cn) rm' in
            let out := broadcast s1 rm'
                         (MsgPlayerLeft (playerId cn) (username session)) PNull in
            (cleanEmpty s1, out)
        | None => (cleanEmpty s, [])
        end
  end.

(** [ws.on('error')]. *)
Definition on_error (s : State) (c : nat) : State * list Frame :=
  match conns s !! c with
  | None => (s, [])
  | Some cn =>
      let s1 :=
        if prim_truthy (playerId cn)
        then store s (room cn) (JSMap.delete (playerId cn) (deref s (room cn)))
        else s in
      (cleanEmpty s1, [])
  end.

(** ** The event loop *)

(** What the runtime hands to the callbacks.  The socket is CLOSED when
    'close' is emitted and CLOSING when 'error' is.  [EvBadUrl] is a
    connection whose request target [new URL] rejects (such as [//]): the
    connection callback throws on its first line. *)
Inductive Event : Type :=
  | EvConnection (game room_ : option string)
  | EvMessage (c : nat) (raw : Inbound)
  | EvClose (c : nat)
  | EvError (c : nat)
  | EvBadUrl.

Definition step (MAX_PLAYERS : option Z) (s : State) (ev : Event)
  : option (State * list Frame) :=
  match ev with
  | EvConnection g r => Some (on_connection s g r, [])
  | EvMessage c raw => on_message MAX_PLAYERS s c raw
  | EvClose c => Some (on_close (set_readyState s c (λ _, CLOSED)) c)
  | EvError c => Some (on_error (set_readyState s c (λ _, CLOSING)) c)
  | EvBadUrl => None
  end.

(** The frames are collected in the order they were sent. *)
Fixpoint run (MAX_PLAYERS : option Z) (s : State) (evs : list Event)
  : option (State * list Frame) :=
  match evs with
  | [] => Some (s, [])
  | ev :: evs' =>
      match step MAX_PLAYERS s ev with
      | None => None
      | Some (s1, out1) =>
          match run MAX_PLAYERS s1 evs' with
          | None => None
          | Some (s2, out2) => Some (s2, out1 ++ out2)
          end
      end
  end.

(** ** The heartbeat

    The timer callback and the pong handler, over [wss.clients] with the
    [isAlive] flag of each socket.  The callback's calls are recorded.  Of
    what the library does on them, one effect is modelled: a terminated socket
    leaves [wss.clients] before the next tick ([after_tick]). *)

(** What the timer callback calls on a socket. *)
Inductive HeartbeatCall : Type :=
  | Terminate (c : nat)
  | Ping (c : nat).

(** The body of [wss.clients.forEach] on one socket with its [isAlive] flag:
    [if (!ws.isAlive) { ws.terminate(); return; } ws.isAlive = false;
    ws.ping();]. *)
Definition heartbeat_socket (e : nat * bool) : (nat * bool) * HeartbeatCall :=
  if negb e.2 then (e, Terminate e.1) else ((e.1, false), Ping e.1).

(** The [setInterval] callback over [wss.clients] (sockets with their flags):
    the flags afterwards and the calls made, in order. *)
Definition heartbeat (clients : list (nat * bool)) : list (nat * bool) * list HeartbeatCall :=
  (map (λ e, (heartbeat_socket e).1) clients, map (λ e, (heartbeat_socket e).2) clients).

(** [ws.on('pong')]: [ws.isAlive = true]. *)
Definition on_pong (c : nat) (clients : list (nat * bool)) : list (nat * bool) :=
  map (λ e, if decide (e.1 = c) then (e.1, true) else e) clients.

(** [wss.clients] after a tick: the sockets the callback did not terminate,
    with the flags it left them. *)
Definition after_tick (clients : list (nat * bool)) : list (nat * bool) :=
  (heartbeat (filter (λ e, e.2 = true) clients)).1.

(** Ticks of the timer, each followed by the pongs that arrive before the
    next one: the calls made by all the ticks. *)
Fixpoint ticks (clients : list (nat * bool)) (pongs : list (list nat))
  : list HeartbeatCall :=
  match pongs with
  | [] => []
  | ps :: rest =>
      (heartbeat clients).2
      ++ ticks (foldl (λ l c, on_pong c l) (after_tick clients) ps) rest
  end.

(** ** Predicates on states *)

(** The entries a broadcast reaches: stored under another id than the
    excluded one, with an open socket. *)
Definition recipient (s : State) (excludeId : prim) (e : prim * Session) : Prop :=
  e.1 ≠ excludeId ∧ is_open s (ws e.2) = true.

Global Instance recipient_dec s ex e : Decision (recipient s ex e).
Proof. unfold recipient. apply _. Defined.

Definition no_empty_room (s : State) : Prop :=
  ∀ key r, (key, r) ∈ rooms s → 0 < JSMap.size (deref s r).

(** The keys whose room a cleanup pass finds empty. *)
Definition empty_keys (s : State) (visited : list (string * nat)) : list string :=
  (filter (λ kr, JSMap.size (deref s kr.2) = 0) visited).*1.

(** Every stored username satisfies [P]. *)
Definition usernames (P : jsval → Prop) (s : State) : Prop :=
  Forall (λ rm : Room, Forall (λ e, P (username e.2)) rm) (heap s).

(** Every stored session has a truthy username. *)
Definition named (s : State) : Prop :=
  Forall (λ rm : Room, Forall (λ e, js_truthy (username e.2) = true) rm) (heap s).

(** Every stored session has a username that [console.log] can print. *)
Definition printed (s : State) : Prop := usernames (λ v, printable v = true) s.

(** The room object and the key each connection captured. *)
Definition wiring (s : State) : list (nat * string) :=
  (λ cn, (room cn, roomKey cn)) <$> conns s.

(** What holds of every state the server can be in: the connections capture
    allocated rooms, the ids of a room are distinct, every session holds the
    socket of a connection of its room, and a registry entry and the
    connections of its room agree on the key. *)
Record invariant (s : State) : Prop := mkInvariant {
  inv_conn_room : ∀ c r k, wiring s !! c = Some (r, k) → (r < length (heap s))%nat;
  inv_keys : ∀ r rm, heap s !! r = Some rm → NoDup (JSMap.keys rm);
  inv_owner : ∀ r rm p session,
    heap s !! r = Some rm → (p, session) ∈ rm → ∃ k, wiring s !! ws session = Some (r, k);
  inv_registry : ∀ key r,
    (key, r) ∈ rooms s →
    (r < length (heap s))%nat ∧ ∀ c k, wiring s !! c = Some (r, k) → k = key;
  inv_registry_inj : ∀ k1 k2 r, (k1, r) ∈ rooms s → (k2, r) ∈ rooms s → k1 = k2;
  inv_room_key : ∀ c1 c2 r k1 k2,
    wiring s !! c1 = Some (r, k1) → wiring s !! c2 = Some (r, k2) → k1 = k2
}.

Inductive reachable (m : option Z) : State → Prop :=
  | reachable_initial : reachable m initial
  | reachable_step s ev s' out :
      reachable m s → step m s ev = Some (s', out) → reachable m s'.

Definition bounded (m : Z) (s : State) : Prop :=
  Forall (λ rm : Room, JSMap.size rm ≤ m) (heap s).

(** The connection whose callback an event runs. *)
Definition origin (ev : Event) : option nat :=
  match ev with
  | EvConnection _ _ | EvBadUrl => None
  | EvMessage c _ | EvClose c | EvError c => Some c
  end.

(** ** Example states *)

Definition lobby_key : string := "1__lobby".

Definition session_of (c : nat) (name : string) : Session := mkSession c (jstr name) ∅.

(** Two connections to [?game=1&room=lobby]; the first has joined as "p1". *)
Definition lobby_one_joined : State :=
  mkState [[(PStr "p1", session_of 0 "Al")]] [(lobby_key, 0%nat)]
    [mkConnection 0 lobby_key (PStr "p1") OPEN; mkConnection 0 lobby_key PNull OPEN].

(** Both have joined, as "p1" and "p2". *)
Definition lobby_two_joined : State :=
  mkState [[(PStr "p1", session_of 0 "Al"); (PStr "p2", session_of 1 "Bo")]]
    [(lobby_key, 0%nat)]
    [mkConnection 0 lobby_key (PStr "p1") OPEN; mkConnection 0 lobby_key (PStr "p2") OPEN].

(** The first connection joined without a [playerId], the second as "p2". *)
Definition lobby_anonymous : State :=
  mkState [[(PUndefined, session_of 0 "Al"); (PStr "p2", session_of 1 "Bo")]]
    [(lobby_key, 0%nat)]
    [mkConnection 0 lobby_key PUndefined OPEN; mkConnection 0 lobby_key (PStr "p2") OPEN].

(** With room for one player: the first connection joined as "p1", the join
    of the second, also as "p1", was rejected. *)
Definition lobby_rejected : State :=
  mkState [[(PStr "p1", session_of 0 "Al")]] [(lobby_key, 0%nat)]
    [mkConnection 0 lobby_key (PStr "p1") OPEN;
     mkConnection 0 lobby_key (PStr "p1") CLOSING].

(** With room for one player: the first connection joined under the empty
    string, the join of the second, under the same id, was rejected. *)
Definition lobby_rejected_empty_id : State :=
  mkState [[(PStr "", session_of 0 "Al")]] [(lobby_key, 0%nat)]
    [mkConnection 0 lobby_key (PStr "") OPEN; mkConnection 0 lobby_key (PStr "") CLOSING].

(** Both connections joined under the empty string: the session of the second
    replaced the session of the first. *)
Definition lobby_replaced_empty_id : State :=
  mkState [[(PStr "", session_of 1 "Bo")]] [(lobby_key, 0%nat)]
    [mkConnection 0 lobby_key (PStr "") OPEN; mkConnection 0 lobby_key (PStr "") OPEN].

(** The username [{"toString": 1}]: an object whose own property [toString]
    is not a function. *)
Definition unprintable_name : jsval := JObj {[ "toString" := jnum 1 ]}.

(** The state in which one connection has joined [n] times, under the ids
    0, ..., n-1. *)
Definition crowd (n : nat) : State :=
  mkState [(λ i : nat, (PNum (Z.of_nat i), mkSession 0 (jstr "Player") ∅)) <$> seq 0 n]
    [("unknown__default", 0%nat)]
    [mkConnection 0 "unknown__default"
       (match n with O => PNull | S i => PNum (Z.of_nat i) end) OPEN].

(** ** Facts about [Map] *)

Module JSMapFacts.
Section JSMapFacts.
Context {K V : Type} `{EqDecision K}.
Implicit Types (k : K) (v : V) (m : list (K * V)).

Lemma get_set_eq k v m : JSMap.get k (JSMap.set k v m) = Some v.
Proof.
  induction m as [|[k' v'] m IH]; simpl.
  - by rewrite decide_True.
  - destruct (decide (k' = k)) as [->|Hne]; simpl.
    + by rewrite decide_True.
    + by rewrite decide_False.
Qed.

Lemma get_set_ne k k' v m : k ≠ k' → JSMap.get k' (JSMap.set k v m) = JSMap.get k' m.
Proof.
  intros Hne. induction m as [|[k0 v0] m IH]; simpl.
  - by rewrite decide_False.
  - destruct (decide (k0 = k)) as [->|Hk0]; simpl.
    + by rewrite !decide_False.
    + by rewrite IH.
Qed.

Lemma get_Some_elem_of k v m : JSMap.get k m = Some v → (k, v) ∈ m.
Proof.
  induction m as [|[k' v'] m IH]; simpl; [done|].
  destruct (decide (k' = k)) as [->|Hne].
  - intros [= ->]. left.
  - intros Hg. right. by apply IH.
Qed.

Lemma get_None_not_elem_of k m : JSMap.get k m = None ↔ k ∉ JSMap.keys m.
Proof.
  unfold JSMap.keys. induction m as [|[k' v'] m IH]; simpl.
  - split; [intros _; apply not_elem_of_nil|done].
  - rewrite not_elem_of_cons. destruct (decide (k' = k)) as [->|Hne].
    + split; [done|]. by intros [? _].
    + rewrite IH. split; [by split|by intros [_ ?]].
Qed.

Lemma elem_of_get k v m : NoDup (JSMap.keys m) → (k, v) ∈ m → JSMap.get k m = Some v.
Proof.
  unfold JSMap.keys. induction m as [|[k' v'] m IH]; simpl.
  - intros _ Hin. by apply elem_of_nil in Hin.
  - intros [Hnotin Hnd]%NoDup_cons [[= -> ->]|Hin]%elem_of_cons.
    + by rewrite decide_True.
    + rewrite decide_False; [by apply IH|].
      intros ->. apply Hnotin. apply list_elem_of_fmap. by exists (k, v).
Qed.

Lemma keys_set k v m :
  JSMap.keys (JSMap.set k v m) =
  match JSMap.get k m with Some _ => JSMap.keys m | None => JSMap.keys m ++ [k] end.
Proof.
  unfold JSMap.keys. induction m as [|[k' v'] m IH]; csimpl; [done|].
  destruct (decide (k' = k)) as [->|Hne]; csimpl; [done|].
  rewrite IH. by destruct (JSMap.get k m).
Qed.

Lemma keys_set_NoDup k v m : NoDup (JSMap.keys m) → NoDup (JSMap.keys (JSMap.set k v m)).
Proof.
  intros Hnd. rewrite keys_set. destruct (JSMap.get k m) eqn:Hg; [done|].
  apply NoDup_app. split_and!; [done| |apply NoDup_singleton].
  intros x Hx ->%list_elem_of_singleton. by apply get_None_not_elem_of in Hg.
Qed.

Lemma size_set k v m :
  JSMap.size (JSMap.set k v m) =
  match JSMap.get k m with Some _ => JSMap.size m | None => JSMap.size m + 1 end.
Proof.
  unfold JSMap.size. induction m as [|[k' v'] m IH]; simpl; [done|].
  destruct (decide (k' = k)) as [->|Hne]; simpl; [done|].
  destruct (JSMap.get k m); lia.
Qed.

Lemma elem_of_delete k k' v m : (k', v) ∈ JSMap.delete k m ↔ k' ≠ k ∧ (k', v) ∈ m.
Proof. unfold JSMap.delete. by rewrite list_elem_of_filter. Qed.

Lemma get_delete_eq k m : JSMap.get k (JSMap.delete k m) = None.
Proof.
  apply get_None_not_elem_of. unfold JSMap.keys.
  intros ([k' v] & Hk & Hin%elem_of_delete)%list_elem_of_fmap. simpl in Hk.
  destruct Hin as [Hne _]. by apply Hne.
Qed.

Lemma get_delete_ne k k' m : k ≠ k' → JSMap.get k' (JSMap.delete k m) = JSMap.get k' m.
Proof.
  intros Hne. unfold JSMap.delete. induction m as [|[k0 v0] m IH]; [done|].
  rewrite filter_cons. simpl. destruct (decide (k0 ≠ k)) as [Hk0|Hk0]; simpl.
  - by rewrite IH.
  - apply dec_stable in Hk0 as ->. by rewrite decide_False.
Qed.

Lemma keys_delete_NoDup k m : NoDup (JSMap.keys m) → NoDup (JSMap.keys (JSMap.delete k m)).
Proof.
  unfold JSMap.keys, JSMap.delete. intros Hnd.
  eapply sublist_NoDup; [exact Hnd|]. apply fmap_sublist, sublist_filter.
Qed.

Lemma size_nonneg m : 0 ≤ JSMap.size m.
Proof. unfold JSMap.size. lia. Qed.

Lemma size_delete_le k m : JSMap.size (JSMap.delete k m) ≤ JSMap.size m.
Proof.
  unfold JSMap.size, JSMap.delete. pose proof (length_filter (λ kv : K * V, kv.1 ≠ k) m). lia.
Qed.
End JSMapFacts.
End JSMapFacts.

(** ** Facts about the state accessors *)

Import JSMapFacts.

Lemma deref_Some s r rm : heap s !! r = Some rm → deref s r = rm.
Proof. unfold deref. by intros ->. Qed.

Lemma deref_store_eq s r rm rm0 :
  heap s !! r = Some rm0 → deref (store s r rm) r = rm.
Proof.
  intros Hr. unfold deref, store. simpl.
  rewrite list_lookup_insert_eq; [done|]. by eapply lookup_lt_Some.
Qed.

Lemma deref_store_ne s r r' rm : r ≠ r' → deref (store s r rm) r' = deref s r'.
Proof. intros Hne. unfold deref, store. simpl. by rewrite list_lookup_insert_ne. Qed.

Lemma deref_store_None s r rm : heap s !! r = None → store s r rm = s.
Proof.
  intros Hr. unfold store. rewrite list_insert_ge; [by destruct s|].
  by apply lookup_ge_None.
Qed.

Lemma is_open_store s r rm c : is_open (store s r rm) c = is_open s c.
Proof. done. Qed.

Lemma readyState_alter_playerId (cs : list Connection) c c' p :
  readyState <$> alter (λ cn, mkConnection (room cn) (roomKey cn) p (readyState cn)) c cs !! c'
  = readyState <$> cs !! c'.
Proof.
  destruct (decide (c = c')) as [->|Hne].
  - rewrite list_lookup_alter_eq. by destruct (cs !! c').
  - by rewrite list_lookup_alter_ne.
Qed.

Lemma is_open_set_playerId s c p c' : is_open (set_playerId s c p) c' = is_open s c'.
Proof. unfold is_open, set_playerId. simpl. by rewrite readyState_alter_playerId. Qed.

Lemma deref_set_playerId s c p r : deref (set_playerId s c p) r = deref s r.
Proof. done. Qed.

Lemma is_open_true s c cn : conns s !! c = Some cn → readyState cn = OPEN → is_open s c = true.
Proof. intros Hc Ho. unfold is_open. rewrite Hc. simpl. rewrite Ho. by apply bool_decide_eq_true. Qed.

Lemma sendTo_open s c cn msg :
  conns s !! c = Some cn → readyState cn = OPEN → sendTo s c msg = [(c, msg)].
Proof. intros Hc Ho. unfold sendTo. by rewrite (is_open_true _ _ _ Hc Ho). Qed.

(** ** Facts about [broadcast] *)

(** One frame per reached entry, in the order of the room. *)
Lemma broadcast_filter s rm msg ex :
  broadcast s rm msg ex = map (λ e, (ws e.2, msg)) (filter (recipient s ex) rm).
Proof.
  unfold broadcast. induction rm as [|e rm IH]; [done|].
  rewrite filter_cons. simpl. rewrite IH.
  destruct (decide (recipient s ex e)) as [[Hne Ho]|Hn].
  - rewrite bool_decide_eq_true_2 by done. by rewrite Ho.
  - destruct (bool_decide (e.1 ≠ ex)) eqn:Hb; [|done].
    apply bool_decide_eq_true in Hb.
    destruct (is_open s (ws e.2)) eqn:Ho; [|done]. by destruct Hn.
Qed.

Lemma elem_of_broadcast s rm msg ex c msg' :
  (c, msg') ∈ broadcast s rm msg ex ↔
  msg' = msg ∧ ∃ id session, (id, session) ∈ rm ∧ id ≠ ex ∧ ws session = c ∧ is_open s c = true.
Proof.
  rewrite broadcast_filter, list_elem_of_fmap. split.
  - intros ([id session] & [= -> ->] & [[Hne Ho] Hin]%list_elem_of_filter).
    split; [done|]. by exists id, session.
  - intros [-> (id & session & Hin & Hne & <- & Ho)].
    exists (id, session). split; [done|]. by apply list_elem_of_filter.
Qed.

(** Replacing the value stored under a present key by one with the same
    socket does not change whom a broadcast reaches. *)
Lemma broadcast_set_same_ws s rm msg ex k v v' :
  JSMap.get k rm = Some v → ws v' = ws v →
  broadcast s (JSMap.set k v' rm) msg ex = broadcast s rm msg ex.
Proof.
  intros Hg Hws. unfold broadcast. induction rm as [|[k0 v0] rm IH]; [done|].
  simpl in *. destruct (decide (k0 = k)) as [->|Hne]; simpl.
  - injection Hg as ->. by rewrite Hws.
  - by rewrite IH.
Qed.

(** A broadcast that excludes the key just set skips the new entry. *)
Lemma broadcast_set_excluded s rm msg k v :
  broadcast s (JSMap.set k v rm) msg k = broadcast s rm msg k.
Proof.
  unfold broadcast. induction rm as [|[k0 v0] rm IH]; simpl.
  - by rewrite bool_decide_eq_false_2 by (intros Hk; by apply Hk).
  - destruct (decide (k0 = k)) as [->|Hne]; simpl.
    + by rewrite !bool_decide_eq_false_2 by (intros Hk; by apply Hk).
    + by rewrite IH.
Qed.

(** ** Facts about [cleanEmpty] *)

Lemma cleanEmpty_fold_elem_of s (visited acc : list (string * nat)) key r :
  (key, r) ∈ foldl (λ acc kr,
      if JSMap.size (deref s kr.2) =? 0 then JSMap.delete kr.1 acc else acc) acc visited →
  (key, r) ∈ acc ∧
  ∀ r', (key, r') ∈ visited → JSMap.size (deref s r') ≠ 0.
Proof.
  revert acc. induction visited as [|[k0 r0] visited IH]; intros acc Hin; simpl in *.
  - split; [done|]. intros r' Hr'. by apply elem_of_nil in Hr'.
  - apply IH in Hin as [Hin Hrest].
    destruct (Z.eqb_spec (JSMap.size (deref s r0)) 0) as [Hz|Hnz].
    + apply elem_of_delete in Hin as [Hne Hin]. split; [done|].
      intros r' [[= -> ->]|Hr']%elem_of_cons; [done|by apply Hrest].
    + split; [done|].
      intros r' [[= -> ->]|Hr']%elem_of_cons; [done|by apply Hrest].
Qed.

Lemma cleanEmpty_no_empty_room s : no_empty_room (cleanEmpty s).
Proof.
  intros key r Hin. unfold cleanEmpty in Hin. simpl in Hin.
  apply cleanEmpty_fold_elem_of in Hin as [Hin Hne].
  change (deref (cleanEmpty s) r) with (deref s r).
  pose proof (size_nonneg (deref s r)). specialize (Hne r Hin). lia.
Qed.

Lemma cleanEmpty_heap s : heap (cleanEmpty s) = heap s.
Proof. done. Qed.

Lemma cleanEmpty_conns s : conns (cleanEmpty s) = conns s.
Proof. done. Qed.

Lemma deref_cleanEmpty s r : deref (cleanEmpty s) r = deref s r.
Proof. done. Qed.

Lemma players_fold_ge s (l : list (string * nat)) a :
  (∀ key r, (key, r) ∈ l → 0 < JSMap.size (deref s r)) →
  a + Z.of_nat (length l) ≤ foldl (λ a kr, a + JSMap.size (deref s kr.2)) a l.
Proof.
  revert a. induction l as [|[k r] l IH]; intros a Hl; simpl; [lia|].
  specialize (IH (a + JSMap.size (deref s r))).
  pose proof (Hl k r (list_elem_of_here _ _)).
  assert (∀ key r', (key, r') ∈ l → 0 < JSMap.size (deref s r')) as Hl'.
  { intros key r' Hin. apply (Hl key). by right. }
  specialize (IH Hl'). lia.
Qed.

(** Every room the status counts holds a player when none is empty. *)
Lemma status_rooms_le_players s : no_empty_room s → (status s).1 ≤ (status s).2.
Proof.
  intros Hs. unfold status. simpl.
  pose proof (players_fold_ge s (rooms s) 0 Hs) as H.
  unfold JSMap.size at 1. lia.
Qed.

(** ** Facts about the handlers *)

Lemma on_close_cases s c :
  (on_close s c).1 = s ∨ ∃ s1, (on_close s c).1 = cleanEmpty s1.
Proof.
  unfold on_close. destruct (conns s !! c) as [cn|]; [|by left].
  destruct (negb (prim_truthy (playerId cn))); [by left|].
  destruct (JSMap.get (playerId cn) (deref s (room cn))); right; eauto.
Qed.

Lemma on_error_cases s c :
  (on_error s c).1 = s ∨ ∃ s1, (on_error s c).1 = cleanEmpty s1.
Proof.
  unfold on_error. destruct (conns s !! c) as [cn|]; [|by left]. right. eauto.
Qed.

(** A join below capacity whose username the log line can print, spelled
    out. *)
Lemma join_accepted m s c cn rm pid uname :
  conns s !! c = Some cn → heap s !! room cn = Some rm →
  at_capacity m (JSMap.size rm) = false →
  printable (js_or uname (jstr "Player")) = true →
  let session := mkSession c (js_or uname (jstr "Player")) ∅ in
  let s' := store (set_playerId s c pid) (room cn) (JSMap.set pid session rm) in
  on_message m s c (Join pid uname) =
    Some (s', sendTo s c (MsgRoomState (playersList rm))
              ++ broadcast s rm (MsgPlayerJoined pid (username session)) pid)
  ∧ deref s' (room cn) = JSMap.set pid session rm
  ∧ playerId <$> conns s' !! c = Some pid.
Proof.
  intros Hc Hr Hcap Hpr. simpl. unfold on_message. rewrite Hc.
  rewrite deref_set_playerId, (deref_Some _ _ _ Hr), Hcap, Hpr. split_and!.
  - f_equal. f_equal. f_equal.
    + unfold sendTo. by rewrite is_open_set_playerId.
    + rewrite broadcast_set_excluded. unfold broadcast.
      apply flat_map_ext. intros e.
      by rewrite is_open_store, is_open_set_playerId.
  - by rewrite (deref_store_eq _ _ _ rm).
  - simpl. rewrite list_lookup_alter_eq, Hc. done.
Qed.

(** A join below capacity whose username the log line cannot print: the
    exception escapes the handler. *)
Lemma join_throws m s c cn rm pid uname :
  conns s !! c = Some cn → heap s !! room cn = Some rm →
  at_capacity m (JSMap.size rm) = false →
  printable (js_or uname (jstr "Player")) = false →
  on_message m s c (Join pid uname) = None.
Proof.
  intros Hc Hr Hcap Hpr. unfold on_message. rewrite Hc.
  by rewrite deref_set_playerId, (deref_Some _ _ _ Hr), Hcap, Hpr.
Qed.

(** A join at capacity, spelled out. *)
Lemma join_rejected m s c cn rm pid uname :
  conns s !! c = Some cn → heap s !! room cn = Some rm →
  at_capacity m (JSMap.size rm) = true →
  let s' := ws_close (set_playerId s c pid) c in
  on_message m s c (Join pid uname) = Some (s', sendTo s c (MsgError "Room is full"))
  ∧ heap s' = heap s ∧ rooms s' = rooms s
  ∧ is_open s' c = false
  ∧ conns s' !! c = Some (mkConnection (room cn) (roomKey cn) pid (closing (readyState cn))).
Proof.
  intros Hc Hr Hcap. simpl. unfold on_message. rewrite Hc.
  rewrite deref_set_playerId, (deref_Some _ _ _ Hr), Hcap.
  assert (conns (ws_close (set_playerId s c pid) c) !! c
          = Some (mkConnection (room cn) (roomKey cn) pid (closing (readyState cn)))) as Hc'.
  { simpl. by rewrite !list_lookup_alter_eq, Hc. }
  split_and!; try done.
  - f_equal. f_equal. unfold sendTo. by rewrite is_open_set_playerId.
  - unfold is_open. rewrite Hc'. simpl. apply bool_decide_eq_false.
    by destruct (readyState cn).
Qed.

Lemma playersList_ids rm : map entry_id (playersList rm) = JSMap.keys rm.
Proof. unfold playersList, JSMap.keys. rewrite map_map. done. Qed.

Lemma elem_of_playersList rm e :
  e ∈ playersList rm ↔
  ∃ session, (entry_id e, session) ∈ rm
             ∧ entry_username e = username session ∧ entry_data e = data session.
Proof.
  unfold playersList. rewrite list_elem_of_fmap. split.
  - intros ([id session] & -> & Hin). by exists session.
  - intros (session & Hin & Hu & Hd). exists (entry_id e, session).
    split; [|done]. destruct e. simpl in *. by subst.
Qed.

Lemma spread_merge_lookup (a : gmap string jsval) d k :
  spread_merge a d !! k =
  match spread_props d !! k with Some v => Some v | None => a !! k end.
Proof.
  unfold spread_merge. rewrite lookup_union.
  by destruct (spread_props d !! k), (a !! k).
Qed.

Lemma deref_store_delete s r k :
  deref (store s r (JSMap.delete k (deref s r))) r = JSMap.delete k (deref s r).
Proof.
  destruct (heap s !! r) as [rm|] eqn:Hr.
  - by rewrite (deref_store_eq _ _ _ rm).
  - rewrite deref_store_None by done. unfold deref. by rewrite Hr.
Qed.

(** The error handler of a connection whose recorded id is truthy. *)
Lemma on_error_truthy s c cn :
  conns s !! c = Some cn → prim_truthy (playerId cn) = true →
  (on_error s c).2 = []
  ∧ deref (on_error s c).1 (room cn) = JSMap.delete (playerId cn) (deref s (room cn))
  ∧ conns (on_error s c).1 = conns s.
Proof.
  intros Hc Ht. unfold on_error. rewrite Hc, Ht. simpl. split_and!; [done| |done].
  rewrite deref_cleanEmpty. apply deref_store_delete.
Qed.

(** The close handler of a connection whose recorded id is truthy and names a
    session of its room. *)
Lemma on_close_truthy s c cn session :
  conns s !! c = Some cn → prim_truthy (playerId cn) = true →
  JSMap.get (playerId cn) (deref s (room cn)) = Some session →
  (on_close s c).2
    = map (λ e, (ws e.2, MsgPlayerLeft (playerId cn) (username session)))
        (filter (recipient s PNull) (JSMap.delete (playerId cn) (deref s (room cn))))
  ∧ deref (on_close s c).1 (room cn) = JSMap.delete (playerId cn) (deref s (room cn))
  ∧ conns (on_close s c).1 = conns s.
Proof.
  intros Hc Ht Hg. unfold on_close. rewrite Hc, Ht, Hg. simpl. split_and!; [| |done].
  - by rewrite broadcast_filter.
  - rewrite deref_cleanEmpty. apply deref_store_delete.
Qed.

Lemma on_error_silent s c : (on_error s c).2 = [].
Proof. unfold on_error. by destruct (conns s !! c). Qed.

(** ** Reachable states *)

Lemma wiring_lookup s c cn :
  conns s !! c = Some cn → wiring s !! c = Some (room cn, roomKey cn).
Proof. intros Hc. unfold wiring. by rewrite list_lookup_fmap, Hc. Qed.

Lemma wiring_lookup_inv s c r k :
  wiring s !! c = Some (r, k) → ∃ cn, conns s !! c = Some cn ∧ room cn = r ∧ roomKey cn = k.
Proof.
  unfold wiring. rewrite list_lookup_fmap.
  destruct (conns s !! c) as [cn|]; [|done]. intros [= <- <-]. by exists cn.
Qed.

Lemma wiring_alter (f : Connection → Connection) (c : nat) (cs : list Connection) :
  (∀ cn, room (f cn) = room cn ∧ roomKey (f cn) = roomKey cn) →
  (λ cn, (room cn, roomKey cn)) <$> alter f c cs = (λ cn, (room cn, roomKey cn)) <$> cs.
Proof.
  intros Hf. apply list_eq. intros i. rewrite !list_lookup_fmap, list_lookup_alter.
  case_decide as Hi; [subst i|done].
  destruct (cs !! c) as [cn|]; [|done]. simpl. by destruct (Hf cn) as [-> ->].
Qed.

Lemma wiring_set_playerId s c p : wiring (set_playerId s c p) = wiring s.
Proof. unfold wiring, set_playerId. simpl. by apply wiring_alter. Qed.

Lemma wiring_set_readyState s c f : wiring (set_readyState s c f) = wiring s.
Proof. unfold wiring, set_readyState. simpl. by apply wiring_alter. Qed.

Lemma elem_of_set_inv {K V} `{EqDecision K} (k k' : K) (v v' : V) (m : list (K * V)) :
  (k', v') ∈ JSMap.set k v m → (k', v') = (k, v) ∨ (k', v') ∈ m.
Proof.
  induction m as [|[k0 v0] m IH]; simpl.
  - intros ->%list_elem_of_singleton. by left.
  - destruct (decide (k0 = k)) as [->|Hne].
    + intros [->|Hin]%elem_of_cons; [by left|]. right. by right.
    + intros [->|Hin]%elem_of_cons; [right; by left|].
      destruct (IH Hin) as [?|?]; [by left|]. right. by right.
Qed.

Lemma cleanEmpty_rooms_subseteq s key r :
  (key, r) ∈ rooms (cleanEmpty s) → (key, r) ∈ rooms s.
Proof. intros Hin. by apply cleanEmpty_fold_elem_of in Hin as [Hin _]. Qed.

(** A state with the same rooms and connections and no new registry entry. *)
Lemma invariant_same s s' :
  invariant s → heap s' = heap s → wiring s' = wiring s →
  (∀ key r, (key, r) ∈ rooms s' → (key, r) ∈ rooms s) →
  invariant s'.
Proof.
  intros [H1 H2 H3 H4 H5 H6] Hh Hw Hr.
  split; rewrite ?Hh, ?Hw; try done.
  - intros key r Hin. by apply H4, Hr.
  - intros k1 k2 r Hk1 Hk2. eapply H5; by apply Hr.
Qed.

(** Replacing a room by one whose sessions were already in it, or belong to
    connections of that room. *)
Lemma invariant_store s r rm rm' :
  invariant s → heap s !! r = Some rm → NoDup (JSMap.keys rm') →
  (∀ p session, (p, session) ∈ rm' →
     (p, session) ∈ rm ∨ ∃ k, wiring s !! ws session = Some (r, k)) →
  invariant (store s r rm').
Proof.
  intros [H1 H2 H3 H4 H5 H6] Hr Hnd Hin.
  split; unfold store, wiring; simpl; rewrite ?length_insert; try done.
  - intros r0 rm0 [(<- & <- & _)|[_ Hr0]]%list_lookup_insert_Some; [done|by eapply H2].
  - intros r0 rm0 p session [(<- & <- & _)|[_ Hr0]]%list_lookup_insert_Some Hp.
    + destruct (Hin p session Hp) as [Hold|Hnew]; [by eapply H3|done].
    + by eapply H3.
Qed.

Lemma invariant_initial : invariant initial.
Proof. split; unfold wiring; simpl; intros *; try done; by intros ?%elem_of_nil. Qed.

(** The wiring after one more connection. *)
Lemma wiring_snoc hp rs cs cn c x :
  wiring (mkState hp rs (cs ++ [cn])) !! c = Some x ↔
  wiring (mkState hp rs cs) !! c = Some x ∨ (c = length cs ∧ x = (room cn, roomKey cn)).
Proof.
  unfold wiring. simpl. rewrite fmap_app. simpl. rewrite lookup_snoc_Some, length_fmap.
  split.
  - intros [[_ ?]|[-> <-]]; [by left|by right].
  - intros [Hc|[-> ->]]; [left|by right]. split; [|done].
    apply lookup_lt_Some in Hc. by rewrite length_fmap in Hc.
Qed.

Lemma invariant_on_connection s game room_ : invariant s → invariant (on_connection s game room_).
Proof.
  intros Hinv. unfold on_connection, getRoom.
  set (key := param_or game "unknown" +:+ "__" +:+ param_or room_ "default").
  assert (∀ c x, wiring (mkState (heap s) (rooms s) (conns s)) !! c = Some x ↔
                 wiring s !! c = Some x) as Hws by done.
  destruct Hinv as [H1 H2 H3 H4 H5 H6].
  destruct (JSMap.get key (rooms s)) as [r|] eqn:Hget.
  - (* the key names a registered room *)
    apply get_Some_elem_of in Hget. destruct (H4 key r Hget) as [Hlt Hk].
    split; simpl.
    + intros c r' k' [?%Hws|[_ [= -> ->]]]%wiring_snoc; [by eapply H1|done].
    + done.
    + intros r0 rm p session Hr0 Hp. destruct (H3 r0 rm p session Hr0 Hp) as [k Hk0].
      exists k. apply wiring_snoc. left. by apply Hws.
    + intros key' r' Hin. destruct (H4 key' r' Hin) as [Hlt' Hk'].
      split; [done|]. intros c k [?%Hws|[_ [= -> ->]]]%wiring_snoc; [by eapply Hk'|].
      by eapply H5.
    + done.
    + intros c1 c2 r' k1 k2 [Hc1%Hws|[_ Heq1]]%wiring_snoc
                           [Hc2%Hws|[_ Heq2]]%wiring_snoc; simplify_eq/=.
      * by eapply H6.
      * by eapply Hk.
      * symmetry. by eapply Hk.
      * done.
  - (* a fresh room is allocated and registered *)
    assert (∀ c r' k', wiring s !! c = Some (r', k') → r' ≠ length (heap s)) as Hfresh.
    { intros c r' k' Hc%H1. lia. }
    split; simpl; rewrite ?length_app; simpl.
    + intros c r' k' [?%Hws%H1|[_ [= -> ->]]]%wiring_snoc; lia.
    + intros r0 rm [[_ ?]|[_ <-]]%lookup_snoc_Some; [by eapply H2|apply NoDup_nil_2].
    + intros r0 rm p session [[_ Hr0]|[_ <-]]%lookup_snoc_Some Hp.
      * destruct (H3 r0 rm p session Hr0 Hp) as [k Hk0].
        exists k. apply wiring_snoc. left. by apply Hws.
      * by apply elem_of_nil in Hp.
    + intros key' r' [[= -> ->]|Hin]%elem_of_set_inv.
      * split; [lia|].
        intros c k [Hc%Hws|[_ Heq]]%wiring_snoc; [by apply Hfresh in Hc|by simplify_eq/=].
      * destruct (H4 key' r' Hin) as [Hlt' Hk']. split; [lia|].
        intros c k [?%Hws|[_ [= -> ->]]]%wiring_snoc; [by eapply Hk'|lia].
    + intros k1 k2 r [Heq1|Hin1]%elem_of_set_inv [Heq2|Hin2]%elem_of_set_inv; simplify_eq/=.
      * done.
      * apply H4 in Hin2 as [? _]. lia.
      * apply H4 in Hin1 as [? _]. lia.
      * by eapply H5.
    + intros c1 c2 r' k1 k2 [Hc1%Hws|[_ Heq1]]%wiring_snoc
                           [Hc2%Hws|[_ Heq2]]%wiring_snoc; simplify_eq/=.
      * by eapply H6.
      * by apply Hfresh in Hc1.
      * by apply Hfresh in Hc2.
      * done.
Qed.

Lemma invariant_cleanEmpty s : invariant s → invariant (cleanEmpty s).
Proof.
  intros Hinv. apply (invariant_same s); [done..|]. apply cleanEmpty_rooms_subseteq.
Qed.

Lemma invariant_set_playerId s c p : invariant s → invariant (set_playerId s c p).
Proof.
  intros Hinv. apply (invariant_same s); [done|done|apply wiring_set_playerId|done].
Qed.

Lemma invariant_set_readyState s c f : invariant s → invariant (set_readyState s c f).
Proof.
  intros Hinv. apply (invariant_same s); [done|done|apply wiring_set_readyState|done].
Qed.

Lemma invariant_delete s r k :
  invariant s → invariant (store s r (JSMap.delete k (deref s r))).
Proof.
  intros Hinv. destruct (heap s !! r) as [rm|] eqn:Hr.
  - rewrite (deref_Some _ _ _ Hr). apply (invariant_store s r rm); [done..| |].
    + apply keys_delete_NoDup. by eapply inv_keys.
    + intros p session [_ Hin]%elem_of_delete. by left.
  - by rewrite deref_store_None.
Qed.

Lemma invariant_conn_room s c cn :
  invariant s → conns s !! c = Some cn → heap s !! room cn = Some (deref s (room cn)).
Proof.
  intros Hinv Hc%wiring_lookup. apply (inv_conn_room _ Hinv) in Hc.
  apply lookup_lt_is_Some in Hc as [rm Hr]. by rewrite (deref_Some _ _ _ Hr).
Qed.

Lemma invariant_on_message m s c raw s' out :
  invariant s → on_message m s c raw = Some (s', out) → invariant s'.
Proof.
  intros Hinv. unfold on_message.
  destruct (conns s !! c) as [cn|] eqn:Hc; [|by intros [= <- _]].
  pose proof (invariant_conn_room s c cn Hinv Hc) as Hr.
  destruct raw as [| |pid uname|d|ev d|]; try by intros [= <- _].
  - (* join *)
    rewrite deref_set_playerId.
    destruct (at_capacity m (JSMap.size (deref s (room cn))));
      [|destruct (printable _); [|done]]; intros [= <- _].
    + by apply invariant_set_readyState, invariant_set_playerId.
    + apply (invariant_store _ _ (deref s (room cn))).
      * by apply invariant_set_playerId.
      * done.
      * apply keys_set_NoDup. by eapply inv_keys.
      * intros p session [[= -> ->]|Hin]%elem_of_set_inv; [right|by left].
        exists (roomKey cn). rewrite wiring_set_playerId. by apply wiring_lookup.
  - (* state_update *)
    destruct (prim_truthy (playerId cn)); [|by intros [= <- _]].
    destruct (JSMap.get (playerId cn) (deref s (room cn))) as [session|] eqn:Hg;
      intros [= <- _]; [|done].
    apply (invariant_store _ _ (deref s (room cn))); [done..| |].
    + apply keys_set_NoDup. by eapply inv_keys.
    + intros p session' [[= -> ->]|Hin]%elem_of_set_inv; [right|by left]. simpl.
      eapply inv_owner; [done..|]. by apply get_Some_elem_of.
Qed.

Lemma invariant_on_close s c : invariant s → invariant (on_close s c).1.
Proof.
  intros Hinv. unfold on_close. destruct (conns s !! c) as [cn|]; [|done].
  destruct (negb (prim_truthy (playerId cn))); [done|].
  destruct (JSMap.get (playerId cn) (deref s (room cn))); simpl.
  - by apply invariant_cleanEmpty, invariant_delete.
  - by apply invariant_cleanEmpty.
Qed.

Lemma invariant_on_error s c : invariant s → invariant (on_error s c).1.
Proof.
  intros Hinv. unfold on_error. destruct (conns s !! c) as [cn|]; [|done]. simpl.
  apply invariant_cleanEmpty. destruct (prim_truthy (playerId cn)); [|done].
  by apply invariant_delete.
Qed.

Lemma invariant_step m s ev s' out :
  invariant s → step m s ev = Some (s', out) → invariant s'.
Proof.
  intros Hinv. destruct ev as [g r|c raw|c|c|]; simpl; [| | | |done].
  - intros [= <- _]. by apply invariant_on_connection.
  - by apply invariant_on_message.
  - destruct (on_close _ c) as [s1 out1] eqn:Hcl. intros [= <- _].
    change s1 with (s1, out1).1. rewrite <-Hcl.
    by apply invariant_on_close, invariant_set_readyState.
  - destruct (on_error _ c) as [s1 out1] eqn:Her. intros [= <- _].
    change s1 with (s1, out1).1. rewrite <-Her.
    by apply invariant_on_error, invariant_set_readyState.
Qed.

Lemma reachable_invariant m s : reachable m s → invariant s.
Proof.
  induction 1 as [|s ev s' out _ IH Hstep]; [apply invariant_initial|].
  by eapply invariant_step.
Qed.

(** In a reachable state every connection has its room, and the ids of a room
    are distinct. *)
Lemma reachable_room m s c cn :
  reachable m s → conns s !! c = Some cn →
  heap s !! room cn = Some (deref s (room cn)) ∧ NoDup (JSMap.keys (deref s (room cn))).
Proof.
  intros Hinv%reachable_invariant Hc.
  pose proof (invariant_conn_room s c cn Hinv Hc) as Hr. split; [done|].
  by eapply inv_keys.
Qed.

(** *** Rooms stay within the capacity *)

Lemma bounded_deref m s r : 0 ≤ m → bounded m s → JSMap.size (deref s r) ≤ m.
Proof.
  intros Hm Hb. unfold deref. destruct (heap s !! r) as [rm|] eqn:Hr; [|done].
  by eapply (Forall_lookup_1 _ _ _ _ Hb).
Qed.

Lemma bounded_store m s r rm : bounded m s → JSMap.size rm ≤ m → bounded m (store s r rm).
Proof. intros Hb Hrm. by apply Forall_insert. Qed.

Lemma bounded_delete m s r k :
  0 ≤ m → bounded m s → bounded m (store s r (JSMap.delete k (deref s r))).
Proof.
  intros Hm Hb. apply bounded_store; [done|].
  etrans; [apply size_delete_le|by apply bounded_deref].
Qed.

Lemma bounded_on_close m s c : 0 ≤ m → bounded m s → bounded m (on_close s c).1.
Proof.
  intros Hm Hb. unfold on_close. destruct (conns s !! c) as [cn|]; [|done].
  destruct (negb (prim_truthy (playerId cn))); [done|].
  destruct (JSMap.get (playerId cn) (deref s (room cn))); simpl; [|done].
  by apply (bounded_delete m s).
Qed.

Lemma bounded_on_error m s c : 0 ≤ m → bounded m s → bounded m (on_error s c).1.
Proof.
  intros Hm Hb. unfold on_error. destruct (conns s !! c) as [cn|]; [|done]. simpl.
  destruct (prim_truthy (playerId cn)); [|done]. by apply (bounded_delete m s).
Qed.

Lemma bounded_step m s ev s' out :
  0 ≤ m → bounded m s → step (Some m) s ev = Some (s', out) → bounded m s'.
Proof.
  intros Hm Hb. destruct ev as [g r|c raw|c|c|]; simpl; [| | | |done].
  - intros [= <- _]. unfold on_connection, getRoom.
    destruct (JSMap.get _ (rooms s)); simpl; [done|].
    apply Forall_app. split; [done|]. by apply Forall_singleton.
  - unfold on_message. destruct (conns s !! c) as [cn|]; [|by intros [= <- _]].
    destruct raw as [| |pid uname|d|ev d|]; try by intros [= <- _].
    + rewrite deref_set_playerId. simpl.
      destruct (Z.leb_spec m (JSMap.size (deref s (room cn))));
        [|destruct (printable _); [|done]]; intros [= <- _]; [done|].
      apply bounded_store; [done|]. rewrite size_set.
      destruct (JSMap.get pid (deref s (room cn))); lia.
    + destruct (prim_truthy (playerId cn)); [|by intros [= <- _]].
      destruct (JSMap.get (playerId cn) (deref s (room cn))) eqn:Hg; intros [= <- _]; [|done].
      apply bounded_store; [done|]. rewrite size_set, Hg. by apply bounded_deref.
  - intros [= Heq]. change s' with (s', out).1. rewrite <-Heq.
    by apply bounded_on_close.
  - intros [= Heq]. change s' with (s', out).1. rewrite <-Heq.
    by apply bounded_on_error.
Qed.

(** With a capacity that is a number and not negative, no room of a
    reachable state holds more sessions than the capacity. *)
Lemma reachable_bounded m s : 0 ≤ m → reachable (Some m) s → bounded m s.
Proof.
  intros Hm. induction 1 as [|s ev s' out _ IH Hstep]; [by apply Forall_nil|].
  by eapply bounded_step.
Qed.

(** *** Frames stay within the room of the connection that caused them *)

Lemma broadcast_same_room s s0 c cn rm msg ex c' msg' :
  invariant s → conns s !! c = Some cn →
  (∀ p session, (p, session) ∈ rm →
     ws session = c ∨ ∃ p0 session0, (p0, session0) ∈ deref s (room cn)
                                     ∧ ws session0 = ws session) →
  (c', msg') ∈ broadcast s0 rm msg ex →
  ∃ k, wiring s !! c' = Some (room cn, k).
Proof.
  intros Hinv Hc Hrm (_ & id & session & Hin & _ & <- & _)%elem_of_broadcast.
  destruct (Hrm id session Hin) as [->|(p0 & session0 & Hold & <-)].
  - exists (roomKey cn). by apply wiring_lookup.
  - eapply inv_owner; [done| |done]. by eapply invariant_conn_room.
Qed.

Lemma on_message_same_room m s c raw s' out c' msg :
  invariant s → on_message m s c raw = Some (s', out) → (c', msg) ∈ out →
  ∃ cn k, conns s !! c = Some cn ∧ wiring s !! c' = Some (room cn, k).
Proof.
  intros Hinv. unfold on_message.
  destruct (conns s !! c) as [cn|] eqn:Hc; [|by intros [= _ <-] ?%elem_of_nil].
  assert (∀ s0 msg0, (c', msg) ∈ sendTo s0 c msg0 →
          ∃ cn0 k, Some cn = Some cn0 ∧ wiring s !! c' = Some (room cn0, k)) as Hsend.
  { intros s0 msg0. unfold sendTo. destruct (is_open s0 c); [|by intros ?%elem_of_nil].
    intros [= -> ->]%list_elem_of_singleton. exists cn, (roomKey cn).
    split; [done|]. by apply wiring_lookup. }
  assert (∀ s0 rm msg0 ex,
            (∀ p session, (p, session) ∈ rm →
               ws session = c ∨ ∃ p0 session0, (p0, session0) ∈ deref s (room cn)
                                               ∧ ws session0 = ws session) →
            (c', msg) ∈ broadcast s0 rm msg0 ex →
            ∃ cn0 k, Some cn = Some cn0 ∧ wiring s !! c' = Some (room cn0, k)) as Hcast.
  { intros s0 rm msg0 ex Hrm Hin. exists cn.
    destruct (broadcast_same_room s s0 c cn rm msg0 ex c' msg Hinv Hc Hrm Hin) as [k Hk].
    by exists k. }
  destruct raw as [| |pid uname|d|ev d|]; try by intros [= _ <-] ?%elem_of_nil.
  - rewrite deref_set_playerId.
    destruct (at_capacity m (JSMap.size (deref s (room cn))));
      [|destruct (printable _); [|done]]; intros [= _ <-].
    + apply Hsend.
    + intros [Hin|Hin]%elem_of_app; [by eapply Hsend|]. eapply Hcast; [|exact Hin].
      intros p session [[= -> ->]|Hold]%elem_of_set_inv; [by left|right; eauto].
  - destruct (prim_truthy (playerId cn)); [|by intros [= _ <-] ?%elem_of_nil].
    destruct (JSMap.get (playerId cn) (deref s (room cn))) as [session|] eqn:Hg;
      intros [= _ <-]; [|by intros ?%elem_of_nil].
    intros Hin. eapply Hcast; [|exact Hin].
    intros p session' [[= -> ->]|Hold]%elem_of_set_inv; right; [|eauto].
    apply get_Some_elem_of in Hg. eauto.
  - intros [= _ <-] Hin. eapply Hcast; [|exact Hin]. intros p session Hold. right. eauto.
Qed.

Lemma on_close_same_room s c c' msg :
  invariant s → (c', msg) ∈ (on_close s c).2 →
  ∃ cn k, conns s !! c = Some cn ∧ wiring s !! c' = Some (room cn, k).
Proof.
  intros Hinv. unfold on_close.
  destruct (conns s !! c) as [cn|] eqn:Hc; [|by intros ?%elem_of_nil].
  destruct (negb (prim_truthy (playerId cn))); [by intros ?%elem_of_nil|].
  destruct (JSMap.get (playerId cn) (deref s (room cn))); [|by intros ?%elem_of_nil].
  simpl. intros Hin. exists cn.
  eapply broadcast_same_room in Hin as [k Hk]; [by exists k|done..|].
  intros p session [_ Hold]%elem_of_delete. right. eauto.
Qed.

(** Every frame a reachable state sends goes to a connection that captured
    the same room object as the connection whose callback sent it, and was
    opened with the same key text. *)
Lemma frames_same_room m s ev s' out c' msg :
  reachable m s → step m s ev = Some (s', out) → (c', msg) ∈ out →
  ∃ c cn cn', origin ev = Some c ∧ conns s !! c = Some cn ∧ conns s !! c' = Some cn'
              ∧ room cn' = room cn ∧ roomKey cn' = roomKey cn.
Proof.
  intros Hinv%reachable_invariant Hstep Hin.
  assert (∀ c cn k, conns s !! c = Some cn → wiring s !! c' = Some (room cn, k) →
          ∃ c0 cn0 cn', Some c = Some c0 ∧ conns s !! c0 = Some cn0
                        ∧ conns s !! c' = Some cn'
                        ∧ room cn' = room cn0 ∧ roomKey cn' = roomKey cn0) as Hfin.
  { intros c cn k Hc Hw. pose proof (wiring_lookup _ _ _ Hc) as Hwc.
    pose proof (inv_room_key _ Hinv _ _ _ _ _ Hw Hwc) as ->.
    apply wiring_lookup_inv in Hw as (cn' & Hc' & Hr' & Hk'). by exists c, cn, cn'. }
  destruct ev as [g r|c raw|c|c|]; simpl in *; [| | | |done].
  - injection Hstep as _ <-. by apply elem_of_nil in Hin.
  - destruct (on_message_same_room m s c raw s' out c' msg Hinv Hstep Hin)
      as (cn & k & Hc & Hw). by eapply Hfin.
  - injection Hstep as Hstep.
    destruct (on_close_same_room _ c c' msg
                (invariant_set_readyState s c (λ _, CLOSED) Hinv))
      as (cn & k & Hc & Hw); [by rewrite Hstep|].
    rewrite wiring_set_readyState in Hw.
    apply wiring_lookup in Hc. rewrite wiring_set_readyState in Hc.
    apply wiring_lookup_inv in Hc as (cn0 & Hc0 & Hr0 & _). rewrite <-Hr0 in Hw.
    by eapply Hfin.
  - injection Hstep as Hstep.
    pose proof (on_error_silent (set_readyState s c (λ _, CLOSING)) c) as Hnil.
    rewrite Hstep in Hnil. simpl in Hnil. subst out. by apply elem_of_nil in Hin.
Qed.

(** ** The example states are reachable *)

Lemma lobby_one_joined_reachable :
  run (Some 50) initial
    [EvConnection (Some "1") (Some "lobby"); EvConnection (Some "1") (Some "lobby");
     EvMessage 0 (Join (PStr "p1") (jstr "Al"))]
  = Some (lobby_one_joined, [(0%nat, MsgRoomState [])]).
Proof. vm_compute. reflexivity. Qed.

Lemma lobby_two_joined_reachable :
  run (Some 50) lobby_one_joined [EvMessage 1 (Join (PStr "p2") (jstr "Bo"))]
  = Some (lobby_two_joined,
          [(1%nat, MsgRoomState [mkPlayerEntry (PStr "p1") (jstr "Al") ∅]);
           (0%nat, MsgPlayerJoined (PStr "p2") (jstr "Bo"))]).
Proof. vm_compute. reflexivity. Qed.

Lemma lobby_anonymous_reachable :
  ∃ out, run (Some 50) initial
    [EvConnection (Some "1") (Some "lobby"); EvConnection (Some "1") (Some "lobby");
     EvMessage 0 (Join PUndefined (jstr "Al")); EvMessage 1 (Join (PStr "p2") (jstr "Bo"))]
  = Some (lobby_anonymous, out).
Proof. eexists. vm_compute. reflexivity. Qed.

Lemma lobby_rejected_reachable :
  run (Some 1) initial
    [EvConnection (Some "1") (Some "lobby"); EvConnection (Some "1") (Some "lobby");
     EvMessage 0 (Join (PStr "p1") (jstr "Al")); EvMessage 1 (Join (PStr "p1") (jstr "Bo"))]
  = Some (lobby_rejected, [(0%nat, MsgRoomState []); (1%nat, MsgError "Room is full")]).
Proof. vm_compute. reflexivity. Qed.

Lemma lobby_rejected_empty_id_reachable :
  run (Some 1) initial
    [EvConnection (Some "1") (Some "lobby"); EvConnection (Some "1") (Some "lobby");
     EvMessage 0 (Join (PStr "") (jstr "Al")); EvMessage 1 (Join (PStr "") (jstr "Bo"))]
  = Some (lobby_rejected_empty_id,
          [(0%nat, MsgRoomState []); (1%nat, MsgError "Room is full")]).
Proof. vm_compute. reflexivity. Qed.

Lemma lobby_replaced_empty_id_reachable :
  run (Some 50) initial
    [EvConnection (Some "1") (Some "lobby"); EvConnection (Some "1") (Some "lobby");
     EvMessage 0 (Join (PStr "") (jstr "Al")); EvMessage 1 (Join (PStr "") (jstr "Bo"))]
  = Some (lobby_replaced_empty_id,
          [(0%nat, MsgRoomState []);
           (1%nat, MsgRoomState [mkPlayerEntry (PStr "") (jstr "Al") ∅])]).
Proof. vm_compute. reflexivity. Qed.

(** ** Transport errors (C1) *)

(** C1.  With "p1" and "p2" in one room, a transport error on the socket of
    "p1" deletes its session and sends nothing, and the close that follows
    finds no session and sends nothing either: "p2" is never told.  The same
    connection closing without an error does send [player_left] to "p2".  The
    error handler sends no frame in any state. *)
Theorem C1_error_skips_player_left :
  step (Some 50) lobby_two_joined (EvError 0)
  = Some (mkState [[(PStr "p2", session_of 1 "Bo")]] [(lobby_key, 0%nat)]
            [mkConnection 0 lobby_key (PStr "p1") CLOSING;
             mkConnection 0 lobby_key (PStr "p2") OPEN], [])
  ∧ run (Some 50) lobby_two_joined [EvError 0; EvClose 0]
    = Some (mkState [[(PStr "p2", session_of 1 "Bo")]] [(lobby_key, 0%nat)]
              [mkConnection 0 lobby_key (PStr "p1") CLOSED;
               mkConnection 0 lobby_key (PStr "p2") OPEN], [])
  ∧ run (Some 50) lobby_two_joined [EvClose 0]
    = Some (mkState [[(PStr "p2", session_of 1 "Bo")]] [(lobby_key, 0%nat)]
              [mkConnection 0 lobby_key (PStr "p1") CLOSED;
               mkConnection 0 lobby_key (PStr "p2") OPEN],
            [(1%nat, MsgPlayerLeft (PStr "p1") (jstr "Al"))])
  ∧ ∀ s c, (on_error s c).2 = [].
Proof. split_and!; [vm_compute; reflexivity ..|apply on_error_silent]. Qed.

(** ** Room keys (C2) *)

(** C2.  The registry key is the text [gameId__roomId], so the distinct pairs
    ("a__b", "c") and ("a", "b__c") name one room: the two connections
    capture the same room object, the second is listed the session of the
    first, and what the first sends is relayed to the second.  Rooms are
    kept apart by the key text: in a reachable state every frame goes to a
    connection that captured the room object, and was opened with the key
    text, of the connection whose callback sent it. *)
Theorem C2_room_key_collision :
  ("a__b", "c") ≠ ("a", "b__c")
  ∧ (getRoom initial "a__b" "c").2 = (getRoom initial "a" "b__c").2
  ∧ run (Some 50) initial
      [EvConnection (Some "a__b") (Some "c"); EvConnection (Some "a") (Some "b__c");
       EvMessage 0 (Join (PStr "p1") (jstr "Al")); EvMessage 1 (Join (PStr "p2") (jstr "Bo"));
       EvMessage 0 (Custom (jstr "hi") (jnum 1))]
    = Some (mkState [[(PStr "p1", session_of 0 "Al"); (PStr "p2", session_of 1 "Bo")]]
              [("a__b__c", 0%nat)]
              [mkConnection 0 "a__b__c" (PStr "p1") OPEN;
               mkConnection 0 "a__b__c" (PStr "p2") OPEN],
            [(0%nat, MsgRoomState []);
             (1%nat, MsgRoomState [mkPlayerEntry (PStr "p1") (jstr "Al") ∅]);
             (0%nat, MsgPlayerJoined (PStr "p2") (jstr "Bo"));
             (1%nat, MsgCustom (PStr "p1") (jstr "hi") (jnum 1))])
  ∧ ∀ m s ev s' out c' msg,
      reachable m s → step m s ev = Some (s', out) → (c', msg) ∈ out →
      ∃ c cn cn', origin ev = Some c ∧ conns s !! c = Some cn ∧ conns s !! c' = Some cn'
                  ∧ room cn' = room cn ∧ roomKey cn' = roomKey cn.
Proof. split_and!; [done|vm_compute; reflexivity ..|apply frames_same_room]. Qed.

(** ** Capacity (C3) *)

(** C3.  A join that finds exactly MAX_PLAYERS sessions in the room is
    rejected: the error frame is unicast to the joining connection (and
    delivered, its socket being open), the connection is closed and no room
    changes.  A join that finds MAX_PLAYERS - 1 sessions, with a username that
    the log line of the handler can print, succeeds: the session is stored
    under the joiner's id.  After any such join that is not rejected the room
    holds at most MAX_PLAYERS sessions; hence, MAX_PLAYERS not being negative,
    no room of a reachable state holds more.  A join that is not rejected
    and whose username the log line cannot print, such as the object
    [{"toString": 1}], does not succeed: the handler throws, and the exception
    escapes it. *)
Theorem C3_join_capacity (m : Z) s c cn rm pid uname :
  conns s !! c = Some cn → heap s !! room cn = Some rm →
  (JSMap.size rm = m →
     ∃ s', on_message (Some m) s c (Join pid uname)
             = Some (s', sendTo s c (MsgError "Room is full"))
       ∧ (readyState cn = OPEN →
            sendTo s c (MsgError "Room is full") = [(c, MsgError "Room is full")])
       ∧ is_open s' c = false ∧ heap s' = heap s ∧ rooms s' = rooms s)
  ∧ (JSMap.size rm = m - 1 → printable (js_or uname (jstr "Player")) = true →
     ∃ s' out, on_message (Some m) s c (Join pid uname) = Some (s', out)
       ∧ JSMap.get pid (deref s' (room cn))
           = Some (mkSession c (js_or uname (jstr "Player")) ∅))
  ∧ (JSMap.size rm < m → printable (js_or uname (jstr "Player")) = true →
     ∃ s' out, on_message (Some m) s c (Join pid uname) = Some (s', out)
       ∧ JSMap.get pid (deref s' (room cn))
           = Some (mkSession c (js_or uname (jstr "Player")) ∅)
       ∧ JSMap.size (deref s' (room cn)) ≤ m)
  ∧ (JSMap.size rm < m → printable (js_or uname (jstr "Player")) = false →
     on_message (Some m) s c (Join pid uname) = None)
  ∧ (JSMap.size rm < m → on_message (Some m) s c (Join pid unprintable_name) = None)
  ∧ (0 ≤ m → ∀ s0 r rm0,
       reachable (Some m) s0 → heap s0 !! r = Some rm0 → JSMap.size rm0 ≤ m).
Proof.
  intros Hc Hr. split_and!;
    [| | | | |intros Hm s0 r rm0 Hreach Hr0;
              by eapply (Forall_lookup_1 _ _ _ _ (reachable_bounded m s0 Hm Hreach))].
  - intros Hsize.
    destruct (join_rejected (Some m) s c cn rm pid uname Hc Hr) as (Hm & Hh & Hrs & Ho & _).
    { simpl. apply Z.leb_le. lia. }
    eexists. split_and!; try done. intros Hopen. by eapply sendTo_open.
  - intros Hsize Hpr.
    destruct (join_accepted (Some m) s c cn rm pid uname Hc Hr) as (Hm & Hd & _);
      [simpl; apply Z.leb_gt; lia|done|].
    do 2 eexists. split; [exact Hm|]. rewrite Hd. apply get_set_eq.
  - intros Hsize Hpr.
    destruct (join_accepted (Some m) s c cn rm pid uname Hc Hr) as (Hm & Hd & _);
      [simpl; apply Z.leb_gt; lia|done|].
    do 2 eexists. split; [exact Hm|]. rewrite Hd. split; [apply get_set_eq|].
    rewrite size_set. destruct (JSMap.get pid rm); lia.
  - intros Hsize Hpr. eapply join_throws; [done..| |done]. simpl. apply Z.leb_gt. lia.
  - intros Hsize. eapply join_throws; [done..| |done]. simpl. apply Z.leb_gt. lia.
Qed.

Lemma C3_join_capacity_witness :
  (∃ s', on_message (Some 1) lobby_one_joined 1 (Join (PStr "p2") (jstr "Bo"))
           = Some (s', [(1%nat, MsgError "Room is full")])
         ∧ is_open s' 1 = false ∧ heap s' = heap lobby_one_joined)
  ∧ (∃ s' out, on_message (Some 2) lobby_one_joined 1 (Join (PStr "p2") (jstr "Bo"))
                 = Some (s', out)
         ∧ JSMap.get (PStr "p2") (deref s' 0) = Some (session_of 1 "Bo")
         ∧ JSMap.size (deref s' 0) ≤ 2)
  ∧ on_message (Some 2) lobby_one_joined 1 (Join (PStr "p2") unprintable_name) = None.
Proof.
  split_and!.
  - destruct (C3_join_capacity 1 lobby_one_joined 1 (mkConnection 0 lobby_key PNull OPEN)
                [(PStr "p1", session_of 0 "Al")] (PStr "p2") (jstr "Bo")
                eq_refl eq_refl) as [H _].
    destruct (H eq_refl) as (s' & Hm & Hsend & Ho & Hh & _).
    exists s'. split_and!; [|exact Ho|exact Hh].
    rewrite Hm, Hsend by reflexivity. reflexivity.
  - destruct (C3_join_capacity 2 lobby_one_joined 1 (mkConnection 0 lobby_key PNull OPEN)
                [(PStr "p1", session_of 0 "Al")] (PStr "p2") (jstr "Bo")
                eq_refl eq_refl) as (_ & _ & H & _).
    destruct (H eq_refl eq_refl) as (s' & out & Hm & Hg & Hs).
    exists s', out. split_and!; [exact Hm|exact Hg|exact Hs].
  - destruct (C3_join_capacity 2 lobby_one_joined 1 (mkConnection 0 lobby_key PNull OPEN)
                [(PStr "p1", session_of 0 "Al")] (PStr "p2") unprintable_name
                eq_refl eq_refl) as (_ & _ & _ & H & _).
    apply H; reflexivity.
Defined.

(** ** The room_state snapshot (C4) *)

(** Against C4 as stated: the snapshot sent on a join has an entry for every
    session stored before the insertion, also for one stored under the
    joiner's own id. *)
Lemma C4_snapshot_lists_own_id :
  ∃ players,
    on_message (Some 50) lobby_one_joined 1 (Join (PStr "p1") (jstr "Bo"))
    = Some (mkState [[(PStr "p1", session_of 1 "Bo")]] [(lobby_key, 0%nat)]
              [mkConnection 0 lobby_key (PStr "p1") OPEN;
               mkConnection 0 lobby_key (PStr "p1") OPEN],
            [(1%nat, MsgRoomState players)])
    ∧ ¬ (∀ e, e ∈ players → entry_id e ≠ PStr "p1").
Proof.
  exists [mkPlayerEntry (PStr "p1") (jstr "Al") ∅]. split; [vm_compute; reflexivity|].
  intros Hall. by apply (Hall (mkPlayerEntry (PStr "p1") (jstr "Al") ∅)); [left|].
Qed.

(** C4, amended.  On a successful join (not rejected, and with a username
    that the log line of the handler can print) the joining connection is
    sent one [room_state], before anything else, listing exactly the sessions
    stored in the room before the insertion (id, username, data, in the
    room's order); every other frame of the join is a [player_joined].  The
    snapshot has no entry with the joiner's own id if and only if no session
    was stored under that id before the join. *)
Theorem C4_room_state_snapshot m s c cn rm pid uname :
  conns s !! c = Some cn → heap s !! room cn = Some rm → readyState cn = OPEN →
  at_capacity m (JSMap.size rm) = false →
  printable (js_or uname (jstr "Player")) = true →
  ∃ s' out, on_message m s c (Join pid uname)
              = Some (s', (c, MsgRoomState (playersList rm)) :: out)
    ∧ (∀ f, f ∈ out → f.2 = MsgPlayerJoined pid (js_or uname (jstr "Player")))
    ∧ map entry_id (playersList rm) = JSMap.keys rm
    ∧ (∀ e, e ∈ playersList rm ↔
            ∃ session, (entry_id e, session) ∈ rm
                       ∧ entry_username e = username session
                       ∧ entry_data e = data session)
    ∧ ((∀ e, e ∈ playersList rm → entry_id e ≠ pid) ↔ JSMap.get pid rm = None).
Proof.
  intros Hc Hr Hopen Hcap Hpr.
  destruct (join_accepted m s c cn rm pid uname Hc Hr Hcap Hpr) as (Hm & _).
  rewrite (sendTo_open _ _ _ _ Hc Hopen) in Hm. do 2 eexists. split_and!.
  - exact Hm.
  - intros [c' msg] Hf. by apply elem_of_broadcast in Hf as [-> _].
  - apply playersList_ids.
  - apply elem_of_playersList.
  - rewrite get_None_not_elem_of, <-playersList_ids. split.
    + intros Hall (e & -> & He)%list_elem_of_fmap. by apply (Hall e).
    + intros Hnotin e He Heq. apply Hnotin. apply list_elem_of_fmap. by exists e.
Qed.

Lemma C4_room_state_snapshot_witness :
  ∃ s' out, on_message (Some 50) lobby_one_joined 1 (Join (PStr "p2") (jstr "Bo"))
              = Some (s', (1%nat, MsgRoomState [mkPlayerEntry (PStr "p1") (jstr "Al") ∅]) :: out)
    ∧ ∀ e, e ∈ playersList [(PStr "p1", session_of 0 "Al")] → entry_id e ≠ PStr "p2".
Proof.
  destruct (C4_room_state_snapshot (Some 50) lobby_one_joined 1
              (mkConnection 0 lobby_key PNull OPEN)
              [(PStr "p1", session_of 0 "Al")] (PStr "p2") (jstr "Bo")
              eq_refl eq_refl eq_refl eq_refl eq_refl)
    as (s' & out & Hm & _ & _ & _ & Hiff).
  exists s', out. split; [exact Hm|]. apply Hiff. reflexivity.
Defined.

(** ** State updates (C5) *)

(** Against C5 as stated: a session stored under a falsy id is joined, yet
    its state updates are dropped, with an open member in the room; and a
    connection that never joined updates the session of another one when its
    recorded id names it. *)
Lemma C5_state_update_counterexample :
  (JSMap.get PUndefined (deref lobby_anonymous 0) = Some (mkSession 0 (jstr "Al") ∅)
   ∧ JSMap.get (PStr "p2") (deref lobby_anonymous 0) = Some (mkSession 1 (jstr "Bo") ∅)
   ∧ is_open lobby_anonymous 1 = true
   ∧ spread_merge ∅ (JObj {[ "x" := jnum 1 ]}) !! "x" = Some (jnum 1)
   ∧ on_message (Some 50) lobby_anonymous 0 (StateUpdate (JObj {[ "x" := jnum 1 ]}))
     = Some (lobby_anonymous, []))
  ∧ (∀ p session, JSMap.get p (deref lobby_rejected 0) = Some session → ws session ≠ 1%nat)
  ∧ on_message (Some 1) lobby_rejected 1 (StateUpdate (JObj {[ "x" := jnum 1 ]}))
    = Some (mkState [[(PStr "p1", mkSession 0 (jstr "Al") {[ "x" := jnum 1 ]})]]
              (rooms lobby_rejected) (conns lobby_rejected), []).
Proof.
  split_and!; try (vm_compute; reflexivity).
  intros p session. simpl. case_decide; [|done]. by intros [= <-].
Qed.

(** C5, amended.  A state update from a connection whose recorded id is
    truthy and names a session of its room replaces that session's data by
    the shallow merge (the keys of the delta overwrite, the other keys stay),
    leaves every other session, the registry and the connections as they
    were, and sends [state_update] with exactly the delta, the id and the
    session's username to every open member stored under another id.  A
    state update from a connection whose recorded id is falsy or names no
    session of its room changes nothing and sends nothing. *)
Theorem C5_state_update m s c cn rm d :
  conns s !! c = Some cn → heap s !! room cn = Some rm →
  (∀ session,
     prim_truthy (playerId cn) = true → JSMap.get (playerId cn) rm = Some session →
     ∃ s', on_message m s c (StateUpdate d)
             = Some (s', map (λ e, (ws e.2,
                                     MsgStateUpdate (playerId cn) (username session) d))
                           (filter (recipient s (playerId cn)) rm))
       ∧ JSMap.get (playerId cn) (deref s' (room cn))
           = Some (mkSession (ws session) (username session)
                     (spread_merge (data session) d))
       ∧ (∀ k, spread_merge (data session) d !! k
               = match spread_props d !! k with
                 | Some v => Some v
                 | None => data session !! k
                 end)
       ∧ (∀ o, d = JObj o → spread_props d = o)
       ∧ (∀ id, id ≠ playerId cn → JSMap.get id (deref s' (room cn)) = JSMap.get id rm)
       ∧ JSMap.keys (deref s' (room cn)) = JSMap.keys rm
       ∧ (∀ r, r ≠ room cn → deref s' r = deref s r)
       ∧ conns s' = conns s ∧ rooms s' = rooms s)
  ∧ (prim_truthy (playerId cn) = false ∨ JSMap.get (playerId cn) rm = None →
     on_message m s c (StateUpdate d) = Some (s, [])).
Proof.
  intros Hc Hr. split.
  - intros session Ht Hg. unfold on_message. rewrite Hc, Ht, (deref_Some _ _ _ Hr), Hg.
    exists (store s (room cn)
              (JSMap.set (playerId cn)
                 (mkSession (ws session) (username session)
                    (spread_merge (data session) d)) rm)).
    split_and!; [| | | | | | |done|done].
    + rewrite (broadcast_set_same_ws _ _ _ _ _ session) by done.
      rewrite broadcast_filter. reflexivity.
    + rewrite (deref_store_eq _ _ _ rm) by done. apply get_set_eq.
    + apply spread_merge_lookup.
    + by intros o ->.
    + intros id Hne. rewrite (deref_store_eq _ _ _ rm) by done.
      by apply get_set_ne.
    + rewrite (deref_store_eq _ _ _ rm) by done. by rewrite keys_set, Hg.
    + intros r Hne. by apply deref_store_ne.
  - intros Hno. unfold on_message. rewrite Hc, (deref_Some _ _ _ Hr).
    destruct (prim_truthy (playerId cn)); [|done].
    destruct Hno as [Hf | Hn]; [done|]. by rewrite Hn.
Qed.

Lemma C5_state_update_witness :
  ∃ s', on_message (Some 50) lobby_two_joined 0 (StateUpdate (JObj {[ "x" := jnum 1 ]}))
          = Some (s', [(1%nat, MsgStateUpdate (PStr "p1") (jstr "Al")
                                 (JObj {[ "x" := jnum 1 ]}))])
    ∧ JSMap.get (PStr "p1") (deref s' 0)
        = Some (mkSession 0 (jstr "Al") (spread_merge ∅ (JObj {[ "x" := jnum 1 ]}))).
Proof.
  destruct (C5_state_update (Some 50) lobby_two_joined 0
              (mkConnection 0 lobby_key (PStr "p1") OPEN)
              [(PStr "p1", session_of 0 "Al"); (PStr "p2", session_of 1 "Bo")]
              (JObj {[ "x" := jnum 1 ]}) eq_refl eq_refl) as [H _].
  destruct (H (session_of 0 "Al") eq_refl eq_refl) as (s' & Hm & Hg & _).
  exists s'. split; [exact Hm|exact Hg].
Defined.

(** ** Custom events (C6) *)

(** C6.  A custom event from a connection that has not joined is relayed: the
    member of the room receives it, with [null] for the sender's id.  In any
    state the handler returns, and returns the state it was given. *)
Theorem C6_custom_before_join_is_relayed :
  (∀ p session, JSMap.get p (deref lobby_one_joined 0) = Some session → ws session ≠ 1%nat)
  ∧ playerId <$> conns lobby_one_joined !! 1%nat = Some PNull
  ∧ on_message (Some 50) lobby_one_joined 1 (Custom (jstr "hi") (jnum 1))
    = Some (lobby_one_joined, [(0%nat, MsgCustom PNull (jstr "hi") (jnum 1))])
  ∧ ∀ m s c ev d, ∃ out, on_message m s c (Custom ev d) = Some (s, out).
Proof.
  split_and!; [|vm_compute; reflexivity ..|].
  - intros p session. simpl. case_decide; [|done]. by intros [= <-].
  - intros m s c ev d. unfold on_message. destruct (conns s !! c); eauto.
Qed.

(** ** Empty rooms (C7) *)

(** C7.  After a cleanup pass every room of the registry holds at least one
    session, so the status counts no empty room (the rooms it counts are at
    most as many as the players it counts).  Both removal paths end in a
    cleanup pass: after the close and the error handler either nothing was
    touched or the registry holds no empty room. *)
Theorem C7_no_empty_room_after_cleanup s c :
  no_empty_room (cleanEmpty s)
  ∧ (status (cleanEmpty s)).1 ≤ (status (cleanEmpty s)).2
  ∧ ((on_close s c).1 = s ∨ no_empty_room (on_close s c).1)
  ∧ ((on_error s c).1 = s ∨ no_empty_room (on_error s c).1).
Proof.
  split_and!.
  - apply cleanEmpty_no_empty_room.
  - apply status_rooms_le_players, cleanEmpty_no_empty_room.
  - destruct (on_close_cases s c) as [->|[s1 ->]]; [by left|right].
    apply cleanEmpty_no_empty_room.
  - destruct (on_error_cases s c) as [->|[s1 ->]]; [by left|right].
    apply cleanEmpty_no_empty_room.
Qed.

(** ** A rejected join followed by a transport error (C8) *)

(** Against C8 as stated: after a rejected join under the empty string, a
    transport error of the rejected connection leaves the session that an
    open connection holds under that id in place. *)
Lemma C8_empty_id_counterexample :
  playerId <$> conns lobby_rejected_empty_id !! 1%nat = Some (PStr "")
  ∧ JSMap.get (PStr "") (deref lobby_rejected_empty_id 0) = Some (mkSession 0 (jstr "Al") ∅)
  ∧ is_open lobby_rejected_empty_id 0 = true
  ∧ step (Some 1) lobby_rejected_empty_id (EvError 1) = Some (lobby_rejected_empty_id, [])
  ∧ JSMap.get (PStr "") (deref (on_error lobby_rejected_empty_id 1).1 0)
    = Some (mkSession 0 (jstr "Al") ∅).
Proof. split_and!; vm_compute; reflexivity. Qed.

(** C8, amended.  A join rejected for capacity has already recorded its
    [playerId] on the connection, and inserted nothing.  If that id is truthy
    and the rejected connection later emits a transport error, whatever
    session the room holds under that id is deleted, the other sessions stay,
    and no frame is sent: no [player_left] is broadcast. *)
Theorem C8_rejected_join_then_error m s c cn rm pid uname :
  conns s !! c = Some cn → heap s !! room cn = Some rm →
  at_capacity m (JSMap.size rm) = true →
  ∃ s1, on_message m s c (Join pid uname) = Some (s1, sendTo s c (MsgError "Room is full"))
    ∧ playerId <$> conns s1 !! c = Some pid
    ∧ room <$> conns s1 !! c = Some (room cn)
    ∧ deref s1 (room cn) = rm
    ∧ (prim_truthy pid = true →
       ∀ s2 cn2, conns s2 !! c = Some cn2 → playerId cn2 = pid → room cn2 = room cn →
         (on_error s2 c).2 = []
         ∧ JSMap.get pid (deref (on_error s2 c).1 (room cn)) = None
         ∧ ∀ id, id ≠ pid →
             JSMap.get id (deref (on_error s2 c).1 (room cn))
             = JSMap.get id (deref s2 (room cn))).
Proof.
  intros Hc Hr Hcap.
  destruct (join_rejected m s c cn rm pid uname Hc Hr Hcap) as (Hm & Hh & _ & _ & Hc1).
  eexists. split; [exact Hm|]. rewrite Hc1. split_and!; [done|done| |].
  - unfold deref. rewrite Hh. by rewrite Hr.
  - intros Ht s2 cn2 Hc2 <- <-.
    destruct (on_error_truthy s2 c cn2 Hc2 Ht) as (Hout & Hd & _).
    rewrite Hout, Hd. split_and!; [done|apply get_delete_eq|].
    intros id Hne. by apply get_delete_ne.
Qed.

Lemma C8_rejected_join_then_error_witness :
  ∃ s1, on_message (Some 1) lobby_one_joined 1 (Join (PStr "p1") (jstr "Bo"))
          = Some (s1, [(1%nat, MsgError "Room is full")])
    ∧ JSMap.get (PStr "p1") (deref s1 0) = Some (session_of 0 "Al")
    ∧ (on_error s1 1).2 = []
    ∧ JSMap.get (PStr "p1") (deref (on_error s1 1).1 0) = None.
Proof.
  destruct (C8_rejected_join_then_error (Some 1) lobby_one_joined 1
              (mkConnection 0 lobby_key PNull OPEN)
              [(PStr "p1", session_of 0 "Al")] (PStr "p1") (jstr "Bo")
              eq_refl eq_refl eq_refl)
    as (s1 & Hm & Hp & Hrm & Hd & Herr).
  cbn [room] in Hrm, Hd, Herr.
  exists s1. split; [exact Hm|]. split; [rewrite Hd; reflexivity|].
  destruct (conns s1 !! 1%nat) as [cn1|] eqn:Hc1; [|discriminate Hp].
  injection Hp as Hp. injection Hrm as Hrm.
  destruct (Herr eq_refl s1 cn1 Hc1 Hp Hrm) as (Hout & Hgone & _).
  split; [exact Hout|exact Hgone].
Defined.

(** ** Joining under an id that is taken (C9) *)

(** Against C9 as stated: when the displaced connection closes, the session
    that replaced its own under the empty string stays in the room and
    nothing is broadcast. *)
Lemma C9_empty_id_counterexample :
  playerId <$> conns lobby_replaced_empty_id !! 0%nat = Some (PStr "")
  ∧ JSMap.get (PStr "") (deref lobby_replaced_empty_id 0) = Some (mkSession 1 (jstr "Bo") ∅)
  ∧ step (Some 50) lobby_replaced_empty_id (EvClose 0)
    = Some (mkState [[(PStr "", mkSession 1 (jstr "Bo") ∅)]] [(lobby_key, 0%nat)]
              [mkConnection 0 lobby_key (PStr "") CLOSED;
               mkConnection 0 lobby_key (PStr "") OPEN], [])
  ∧ JSMap.get (PStr "") (deref (on_close lobby_replaced_empty_id 0).1 0)
    = Some (mkSession 1 (jstr "Bo") ∅)
  ∧ (on_close lobby_replaced_empty_id 0).2 = [].
Proof. split_and!; vm_compute; reflexivity. Qed.

(** C9, amended.  A successful join (below capacity, with a username that
    the log line of the handler can print) under an id the room already holds
    replaces the session stored under it: the room keeps its ids and its
    size, holds the joiner's session under that id and (its ids being
    distinct) no other, and the only frames are the [room_state] to the
    joiner and [player_joined] to the open members stored under other ids.
    If the id is truthy and a connection that recorded the same id for the
    same room closes afterwards, the replacing session is deleted and
    [player_left] with that id and the replacing session's username goes to
    the open members that remain (those stored under [null] excepted).  In
    every reachable state the ids of a room are distinct. *)
Theorem C9_duplicate_playerId m s c cn rm pid uname old :
  conns s !! c = Some cn → heap s !! room cn = Some rm →
  at_capacity m (JSMap.size rm) = false →
  printable (js_or uname (jstr "Player")) = true →
  JSMap.get pid rm = Some old →
  let new := mkSession c (js_or uname (jstr "Player")) ∅ in
  ∃ s1, on_message m s c (Join pid uname)
          = Some (s1, sendTo s c (MsgRoomState (playersList rm))
                      ++ map (λ e, (ws e.2, MsgPlayerJoined pid (username new)))
                           (filter (recipient s pid) rm))
    ∧ JSMap.get pid (deref s1 (room cn)) = Some new
    ∧ JSMap.keys (deref s1 (room cn)) = JSMap.keys rm
    ∧ JSMap.size (deref s1 (room cn)) = JSMap.size rm
    ∧ (NoDup (JSMap.keys rm) →
       NoDup (JSMap.keys (deref s1 (room cn)))
       ∧ ∀ session, (pid, session) ∈ deref s1 (room cn) → session = new)
    ∧ (prim_truthy pid = true →
       ∀ c0 cn0, conns s1 !! c0 = Some cn0 → playerId cn0 = pid → room cn0 = room cn →
         let s2 := set_readyState s1 c0 (λ _, CLOSED) in
         (on_close s2 c0).2
           = map (λ e, (ws e.2, MsgPlayerLeft pid (username new)))
               (filter (recipient s2 PNull) (JSMap.delete pid (deref s1 (room cn))))
         ∧ JSMap.get pid (deref (on_close s2 c0).1 (room cn)) = None)
    ∧ (∀ s0 r rm0, reachable m s0 → heap s0 !! r = Some rm0 → NoDup (JSMap.keys rm0)).
Proof.
  intros Hc Hr Hcap Hpr Hold new.
  destruct (join_accepted m s c cn rm pid uname Hc Hr Hcap Hpr) as (Hm & Hd & _).
  fold new in Hm, Hd.
  set (s1 := store (set_playerId s c pid) (room cn) (JSMap.set pid new rm)) in *.
  exists s1. split; [rewrite Hm; by rewrite broadcast_filter|].
  rewrite Hd. split_and!.
  - apply get_set_eq.
  - by rewrite keys_set, Hold.
  - by rewrite size_set, Hold.
  - intros Hnd. split; [by apply keys_set_NoDup|].
    intros session Hin. apply elem_of_get in Hin; [|by apply keys_set_NoDup].
    rewrite get_set_eq in Hin. by injection Hin.
  - intros Ht c0 cn0 Hc0 Hp0 Hr0 s2.
    assert (conns s2 !! c0 = Some (mkConnection (room cn0) (roomKey cn0) (playerId cn0) CLOSED))
      as Hc2.
    { unfold s2, set_readyState. cbn [conns]. by rewrite list_lookup_alter_eq, Hc0. }
    destruct (on_close_truthy s2 c0 _ new Hc2) as (Hout & Hdel & _).
    + simpl. by rewrite Hp0.
    + simpl. rewrite Hp0, Hr0.
      change (deref s2 (room cn)) with (deref s1 (room cn)).
      rewrite Hd. apply get_set_eq.
    + simpl in Hout, Hdel. rewrite Hp0, Hr0 in Hout, Hdel.
      change (deref s2 (room cn)) with (deref s1 (room cn)) in Hout, Hdel.
      rewrite Hd in Hout, Hdel. split; [exact Hout|].
      rewrite Hdel. apply get_delete_eq.
  - intros s0 r rm0 Hreach%reachable_invariant Hr0. by eapply inv_keys.
Qed.

Lemma C9_duplicate_playerId_witness :
  ∃ s1, on_message (Some 50) lobby_one_joined 1 (Join (PStr "p1") (jstr "Bo"))
          = Some (s1, [(1%nat, MsgRoomState [mkPlayerEntry (PStr "p1") (jstr "Al") ∅])])
    ∧ JSMap.get (PStr "p1") (deref s1 0) = Some (session_of 1 "Bo")
    ∧ JSMap.size (deref s1 0) = 1
    ∧ (on_close (set_readyState s1 0 (λ _, CLOSED)) 0).2 = []
    ∧ JSMap.get (PStr "p1") (deref (on_close (set_readyState s1 0 (λ _, CLOSED)) 0).1 0)
      = None.
Proof.
  destruct (C9_duplicate_playerId (Some 50) lobby_one_joined 1
              (mkConnection 0 lobby_key PNull OPEN)
              [(PStr "p1", session_of 0 "Al")] (PStr "p1") (jstr "Bo") (session_of 0 "Al")
              eq_refl eq_refl eq_refl eq_refl eq_refl)
    as (s1 & Hm & Hg & _ & Hsize & _ & Hclose & _).
  assert (on_message (Some 50) lobby_one_joined 1 (Join (PStr "p1") (jstr "Bo"))
          = Some (mkState [[(PStr "p1", session_of 1 "Bo")]] [(lobby_key, 0%nat)]
                    [mkConnection 0 lobby_key (PStr "p1") OPEN;
                     mkConnection 0 lobby_key (PStr "p1") OPEN],
                  [(1%nat, MsgRoomState [mkPlayerEntry (PStr "p1") (jstr "Al") ∅])])) as Heq.
  { vm_compute. reflexivity. }
  exists s1. split; [exact Hm|]. split; [exact Hg|]. split; [exact Hsize|].
  rewrite Heq in Hm. injection Hm as Hs1. subst s1.
  destruct (Hclose eq_refl 0%nat (mkConnection 0 lobby_key (PStr "p1") OPEN)
              eq_refl eq_refl eq_refl) as [Hout Hgone].
  split; [rewrite Hout; reflexivity|exact Hgone].
Defined.

(** ** Join without a playerId (C10) *)

(** Against C10 as stated: a join without a [playerId] that finds the room
    full is rejected, as any other join is: the joiner is sent the error and
    its socket starts closing, no session is inserted and nothing is
    broadcast. *)
Lemma C10_full_room_counterexample :
  run (Some 1) initial
    [EvConnection (Some "1") (Some "lobby"); EvConnection (Some "1") (Some "lobby");
     EvMessage 0 (Join (PStr "p1") (jstr "Al")); EvMessage 1 (Join PUndefined jundefined)]
  = Some (mkState [[(PStr "p1", session_of 0 "Al")]] [(lobby_key, 0%nat)]
            [mkConnection 0 lobby_key (PStr "p1") OPEN;
             mkConnection 0 lobby_key PUndefined CLOSING],
          [(0%nat, MsgRoomState []); (1%nat, MsgError "Room is full")])
  ∧ JSMap.get PUndefined [(PStr "p1", session_of 0 "Al")] = None.
Proof. split; vm_compute; reflexivity. Qed.

(** C10, amended.  A join without a [playerId] is not rejected or ignored for
    lacking it.  When it finds the room below capacity and its username is
    one that the log line of the handler can print (an absent one is), it is
    carried out like any other: the session is stored under [undefined], the
    connection records [undefined] as its id, [player_joined] with that id
    goes to every open member stored under another id, and an absent (or
    otherwise falsy) username becomes "Player".  When it finds the room at
    capacity it is rejected like any other: the joiner is sent the error, its
    socket is closed and no room changes. *)
Theorem C10_join_without_playerId m s c cn rm uname :
  conns s !! c = Some cn → heap s !! room cn = Some rm →
  (at_capacity m (JSMap.size rm) = false →
   printable (js_or uname (jstr "Player")) = true →
   ∃ s', on_message m s c (Join PUndefined uname)
           = Some (s', sendTo s c (MsgRoomState (playersList rm))
                       ++ map (λ e, (ws e.2, MsgPlayerJoined PUndefined
                                                (js_or uname (jstr "Player"))))
                            (filter (recipient s PUndefined) rm))
     ∧ JSMap.get PUndefined (deref s' (room cn))
         = Some (mkSession c (js_or uname (jstr "Player")) ∅)
     ∧ playerId <$> conns s' !! c = Some PUndefined)
  ∧ (at_capacity m (JSMap.size rm) = true →
     ∃ s', on_message m s c (Join PUndefined uname)
             = Some (s', sendTo s c (MsgError "Room is full"))
       ∧ is_open s' c = false ∧ heap s' = heap s ∧ rooms s' = rooms s)
  ∧ js_or jundefined (jstr "Player") = jstr "Player"
  ∧ printable (js_or jundefined (jstr "Player")) = true
  ∧ (js_truthy uname = true → js_or uname (jstr "Player") = uname).
Proof.
  intros Hc Hr. split_and!.
  - intros Hcap Hpr.
    destruct (join_accepted m s c cn rm PUndefined uname Hc Hr Hcap Hpr) as (Hm & Hd & Hp).
    eexists. split_and!.
    + rewrite Hm. by rewrite broadcast_filter.
    + rewrite Hd. apply get_set_eq.
    + exact Hp.
  - intros Hcap.
    destruct (join_rejected m s c cn rm PUndefined uname Hc Hr Hcap)
      as (Hm & Hh & Hrs & Ho & _).
    eexists. by split_and!.
  - done.
  - done.
  - intros Ht. unfold js_or. by rewrite Ht.
Qed.

Lemma C10_join_without_playerId_witness :
  (∃ s', on_message (Some 50) lobby_one_joined 1 (Join PUndefined jundefined)
           = Some (s', [(1%nat, MsgRoomState [mkPlayerEntry (PStr "p1") (jstr "Al") ∅]);
                        (0%nat, MsgPlayerJoined PUndefined (jstr "Player"))])
     ∧ JSMap.get PUndefined (deref s' 0) = Some (session_of 1 "Player"))
  ∧ (∃ s', on_message (Some 1) lobby_one_joined 1 (Join PUndefined jundefined)
             = Some (s', [(1%nat, MsgError "Room is full")])
       ∧ heap s' = heap lobby_one_joined).
Proof.
  split.
  - destruct (C10_join_without_playerId (Some 50) lobby_one_joined 1
                (mkConnection 0 lobby_key PNull OPEN)
                [(PStr "p1", session_of 0 "Al")] jundefined eq_refl eq_refl)
      as (H & _).
    destruct (H eq_refl eq_refl) as (s' & Hm & Hg & _).
    exists s'. split; [exact Hm|exact Hg].
  - destruct (C10_join_without_playerId (Some 1) lobby_one_joined 1
                (mkConnection 0 lobby_key PNull OPEN)
                [(PStr "p1", session_of 0 "Al")] jundefined eq_refl eq_refl)
      as (_ & H & _).
    destruct (H eq_refl) as (s' & Hm & _ & Hh & _).
    exists s'. split; [exact Hm|exact Hh].
Defined.

(** * Further properties of the server *)

(** ** The registry: [getRoom] and [cleanEmpty] *)

Lemma filter_ext_elem_of {A} (P Q : A → Prop) `{∀ x, Decision (P x)} `{∀ x, Decision (Q x)}
    (l : list A) :
  (∀ x, x ∈ l → P x ↔ Q x) → filter P l = filter Q l.
Proof.
  induction l as [|x l IH]; intros Hl; [done|].
  rewrite !filter_cons. rewrite IH by (intros y Hy; apply Hl; by right).
  destruct (decide (P x)) as [HP|HP], (decide (Q x)) as [HQ|HQ]; try done.
  - destruct HQ. by apply (Hl x); [left|].
  - destruct HP. by apply (Hl x); [left|].
Qed.

Lemma filter_all {A} (P : A → Prop) `{∀ x, Decision (P x)} (l : list A) :
  (∀ x, x ∈ l → P x) → filter P l = l.
Proof.
  induction l as [|x l IH]; intros Hl; [done|].
  rewrite filter_cons_True by (apply Hl; left). f_equal. apply IH.
  intros y Hy. apply Hl. by right.
Qed.

Lemma deref_alloc hp rs cs r :
  deref (mkState (hp ++ [[]]) rs cs) r = deref (mkState hp rs cs) r.
Proof.
  unfold deref. simpl. destruct (decide (r < length hp)%nat) as [Hlt|Hge].
  - by rewrite lookup_app_l.
  - rewrite (lookup_ge_None_2 hp r) by lia.
    destruct (decide (r = length hp)) as [->|Hne].
    + by rewrite list_lookup_middle.
    + rewrite lookup_ge_None_2; [done|]. rewrite length_app. simpl. lia.
Qed.

Lemma deref_getRoom s gameId roomId r :
  deref (getRoom s gameId roomId).1.1 r = deref s r.
Proof.
  unfold getRoom. destruct (JSMap.get _ (rooms s)); simpl; [done|].
  rewrite deref_alloc. by destruct s.
Qed.

Lemma cleanEmpty_fold_filter s (visited acc : list (string * nat)) :
  foldl (λ acc kr,
      if JSMap.size (deref s kr.2) =? 0 then JSMap.delete kr.1 acc else acc) acc visited
  = filter (λ kr, kr.1 ∉ empty_keys s visited) acc.
Proof.
  revert acc. induction visited as [|[k0 r0] visited IH]; intros acc; simpl.
  - symmetry. apply filter_all. intros x _. apply not_elem_of_nil.
  - rewrite IH. unfold empty_keys. rewrite filter_cons. simpl.
    destruct (Z.eqb_spec (JSMap.size (deref s r0)) 0) as [Hz|Hnz].
    + rewrite decide_True by done. unfold JSMap.delete.
      rewrite list_filter_filter. apply list_filter_iff. intros [k r]. simpl.
      rewrite not_elem_of_cons. tauto.
    + by rewrite decide_False.
Qed.

Lemma get_elem_of_unique {K V} `{EqDecision K} (k : K) (v1 v2 : V) (m : list (K * V)) :
  NoDup (JSMap.keys m) → (k, v1) ∈ m → (k, v2) ∈ m → v1 = v2.
Proof.
  intros Hnd H1%(elem_of_get _ _ _ Hnd) H2%(elem_of_get _ _ _ Hnd). congruence.
Qed.

(** With one entry per key, a cleanup pass keeps exactly the entries whose
    room is not empty, in their order. *)
Lemma cleanEmpty_rooms_filter s :
  NoDup (JSMap.keys (rooms s)) →
  rooms (cleanEmpty s) = filter (λ kr, JSMap.size (deref s kr.2) ≠ 0) (rooms s).
Proof.
  intros Hnd. unfold cleanEmpty. simpl. rewrite cleanEmpty_fold_filter.
  apply filter_ext_elem_of. intros [k r] Hin. simpl. unfold empty_keys. split.
  - intros Hk Hz. apply Hk. apply list_elem_of_fmap. exists (k, r). split; [done|].
    by apply list_elem_of_filter.
  - intros Hnz ([k' r'] & Hk & [Hz Hin']%list_elem_of_filter)%list_elem_of_fmap.
    simpl in *. subst k'. by rewrite (get_elem_of_unique k r r' _ Hnd Hin Hin') in Hnz.
Qed.

Lemma cleanEmpty_fold_id s (visited acc : list (string * nat)) :
  (∀ key r, (key, r) ∈ visited → JSMap.size (deref s r) ≠ 0) →
  foldl (λ acc kr,
      if JSMap.size (deref s kr.2) =? 0 then JSMap.delete kr.1 acc else acc) acc visited
  = acc.
Proof.
  revert acc. induction visited as [|[k0 r0] visited IH]; intros acc Hv; simpl; [done|].
  destruct (Z.eqb_spec (JSMap.size (deref s r0)) 0) as [Hz|Hnz].
  - by destruct (Hv k0 r0 (list_elem_of_here _ _)).
  - apply IH. intros key r Hin. apply (Hv key). by right.
Qed.

Lemma cleanEmpty_idempotent s : cleanEmpty (cleanEmpty s) = cleanEmpty s.
Proof.
  unfold cleanEmpty at 1. simpl. rewrite cleanEmpty_fold_id; [done|].
  intros key r Hin. pose proof (cleanEmpty_no_empty_room s key r Hin) as Hpos.
  rewrite deref_cleanEmpty in Hpos. change (deref (cleanEmpty s) r) with (deref s r). lia.
Qed.

Lemma players_fold_filter s (l : list (string * nat)) a :
  foldl (λ a kr, a + JSMap.size (deref s kr.2)) a
    (filter (λ kr, JSMap.size (deref s kr.2) ≠ 0) l)
  = foldl (λ a kr, a + JSMap.size (deref s kr.2)) a l.
Proof.
  revert a. induction l as [|[k r] l IH]; intros a; [done|].
  rewrite filter_cons. simpl. destruct (decide (JSMap.size (deref s r) ≠ 0)) as [Hnz|Hz]; simpl.
  - apply IH.
  - apply dec_stable in Hz. rewrite Hz, Z.add_0_r. apply IH.
Qed.

Lemma cleanEmpty_rooms_sublist s : rooms (cleanEmpty s) `sublist_of` rooms s.
Proof. unfold cleanEmpty. simpl. rewrite cleanEmpty_fold_filter. apply sublist_filter. Qed.

Lemma cleanEmpty_keys_NoDup s :
  NoDup (JSMap.keys (rooms s)) → NoDup (JSMap.keys (rooms (cleanEmpty s))).
Proof.
  intros Hnd. eapply sublist_NoDup; [exact Hnd|].
  apply fmap_sublist, cleanEmpty_rooms_sublist.
Qed.

Lemma on_message_rooms m s c raw s' out :
  on_message m s c raw = Some (s', out) → rooms s' = rooms s.
Proof.
  unfold on_message. destruct (conns s !! c) as [cn|]; [|by intros [= <- _]].
  destruct raw as [| |pid uname|d|ev d|]; try by intros [= <- _].
  - destruct (at_capacity m _); [|destruct (printable _); [|done]]; by intros [= <- _].
  - destruct (prim_truthy (playerId cn)); [|by intros [= <- _]].
    destruct (JSMap.get (playerId cn) (deref s (room cn))); by intros [= <- _].
Qed.

Lemma on_close_rooms s c :
  rooms (on_close s c).1 = rooms s ∨ rooms (on_close s c).1 = rooms (cleanEmpty s)
  ∨ ∃ r rm, rooms (on_close s c).1 = rooms (cleanEmpty (store s r rm)).
Proof.
  unfold on_close. destruct (conns s !! c) as [cn|]; [|by left].
  destruct (negb (prim_truthy (playerId cn))); [by left|].
  destruct (JSMap.get (playerId cn) (deref s (room cn))); simpl; [|right; by left].
  right. right. eauto.
Qed.

Lemma on_error_rooms s c :
  rooms (on_error s c).1 = rooms s ∨ rooms (on_error s c).1 = rooms (cleanEmpty s)
  ∨ ∃ r rm, rooms (on_error s c).1 = rooms (cleanEmpty (store s r rm)).
Proof.
  unfold on_error. destruct (conns s !! c) as [cn|]; [|by left]. simpl.
  destruct (prim_truthy (playerId cn)); [|right; by left]. right. right. eauto.
Qed.

Lemma getRoom_keys_NoDup s gameId roomId :
  NoDup (JSMap.keys (rooms s)) → NoDup (JSMap.keys (rooms (getRoom s gameId roomId).1.1)).
Proof.
  intros Hnd. unfold getRoom. destruct (JSMap.get _ (rooms s)); simpl; [done|].
  by apply keys_set_NoDup.
Qed.

Lemma step_registry_NoDup m s ev s' out :
  NoDup (JSMap.keys (rooms s)) → step m s ev = Some (s', out) →
  NoDup (JSMap.keys (rooms s')).
Proof.
  intros Hnd. destruct ev as [g r|c raw|c|c|]; simpl; [| | | |done].
  - intros [= <- _]. unfold on_connection.
    pose proof (getRoom_keys_NoDup s (param_or g "unknown") (param_or r "default") Hnd) as H.
    by destruct (getRoom s _ _) as [[s1 r1] k1].
  - intros ->%on_message_rooms. done.
  - intros [= Heq]. change s' with (s', out).1. rewrite <-Heq.
    destruct (on_close_rooms (set_readyState s c (λ _, CLOSED)) c)
      as [->|[->|(r & rm & ->)]]; [done| |]; by apply cleanEmpty_keys_NoDup.
  - intros [= Heq]. change s' with (s', out).1. rewrite <-Heq.
    destruct (on_error_rooms (set_readyState s c (λ _, CLOSING)) c)
      as [->|[->|(r & rm & ->)]]; [done| |]; by apply cleanEmpty_keys_NoDup.
Qed.

Lemma reachable_registry_NoDup m s : reachable m s → NoDup (JSMap.keys (rooms s)).
Proof.
  induction 1 as [|s ev s' out _ IH Hstep]; [apply NoDup_nil_2|].
  by eapply step_registry_NoDup.
Qed.

(** X1.  Asking for the room of a key that was just looked up returns the
    same room and changes nothing: [getRoom] creates a room once per
    registered key.  It never changes what is stored in a room, never
    re-registers another key, and the room it creates is empty. *)
Theorem X1_getRoom_reuses_room s gameId roomId :
  let res := getRoom s gameId roomId in
  getRoom res.1.1 gameId roomId = res
  ∧ JSMap.get res.2 (rooms res.1.1) = Some res.1.2
  ∧ (∀ key r, JSMap.get key (rooms s) = Some r → JSMap.get key (rooms res.1.1) = Some r)
  ∧ (∀ r, deref res.1.1 r = deref s r)
  ∧ (JSMap.get res.2 (rooms s) = None → res.1.2 = length (heap s) ∧ deref res.1.1 res.1.2 = [])
  ∧ conns res.1.1 = conns s.
Proof.
  intros res. unfold res. split_and!.
  - unfold getRoom. destruct (JSMap.get (gameId +:+ "__" +:+ roomId) (rooms s)) as [r|] eqn:Hg.
    + cbn [fst snd]. by rewrite Hg.
    + cbn [fst snd rooms]. by rewrite get_set_eq.
  - unfold getRoom. destruct (JSMap.get (gameId +:+ "__" +:+ roomId) (rooms s)) as [r|] eqn:Hg; [exact Hg|].
    apply get_set_eq.
  - intros key r Hkey. unfold getRoom.
    destruct (JSMap.get (gameId +:+ "__" +:+ roomId) (rooms s)) as [r0|] eqn:Hg; [exact Hkey|].
    cbn [fst snd rooms]. rewrite get_set_ne; [done|]. intros <-. congruence.
  - apply deref_getRoom.
  - unfold getRoom. destruct (JSMap.get (gameId +:+ "__" +:+ roomId) (rooms s)) as [r0|] eqn:Hg.
    + cbn [fst snd]. intros Hn. congruence.
    + intros _. split; [done|]. unfold deref. cbn [fst snd heap].
      by rewrite list_lookup_middle.
  - unfold getRoom. by destruct (JSMap.get (gameId +:+ "__" +:+ roomId) (rooms s)).
Qed.

(** X2.  A cleanup pass is idempotent, touches neither the room objects nor
    the connections, only drops registry entries (the others keep their
    order), and leaves no entry with an empty room. *)
Theorem X2_cleanEmpty_idempotent s :
  cleanEmpty (cleanEmpty s) = cleanEmpty s
  ∧ heap (cleanEmpty s) = heap s ∧ conns (cleanEmpty s) = conns s
  ∧ rooms (cleanEmpty s) `sublist_of` rooms s
  ∧ (∀ key r, (key, r) ∈ rooms (cleanEmpty s) → deref s r ≠ []).
Proof.
  split_and!; [apply cleanEmpty_idempotent|done|done|apply cleanEmpty_rooms_sublist|].
  intros key r Hin Hnil. pose proof (cleanEmpty_no_empty_room s key r Hin) as Hpos.
  rewrite deref_cleanEmpty, Hnil in Hpos. by compute in Hpos.
Qed.

(** X3.  When the registry has one entry per key (as in every reachable
    state), a cleanup pass keeps exactly the entries whose room holds a
    session; the status then reports as many rooms as there are rooms with a
    session, and the same number of players as before the pass. *)
Theorem X3_cleanEmpty_keeps_populated_rooms s :
  NoDup (JSMap.keys (rooms s)) →
  (∀ key r, (key, r) ∈ rooms (cleanEmpty s) ↔ (key, r) ∈ rooms s ∧ 0 < JSMap.size (deref s r))
  ∧ (status (cleanEmpty s)).1
    = Z.of_nat (length (filter (λ kr, JSMap.size (deref s kr.2) ≠ 0) (rooms s)))
  ∧ (status (cleanEmpty s)).2 = (status s).2.
Proof.
  intros Hnd. pose proof (cleanEmpty_rooms_filter s Hnd) as Hf. split_and!.
  - intros key r. rewrite Hf, list_elem_of_filter. simpl.
    pose proof (size_nonneg (deref s r)). split; intros [? ?]; split; try done; lia.
  - change ((status (cleanEmpty s)).1) with (JSMap.size (rooms (cleanEmpty s))).
    by rewrite Hf.
  - change ((status (cleanEmpty s)).2)
      with (foldl (λ a kr, a + JSMap.size (deref s kr.2)) 0 (rooms (cleanEmpty s))).
    rewrite Hf. apply (players_fold_filter s).
Qed.

Lemma X3_cleanEmpty_keeps_populated_rooms_witness :
  (status (cleanEmpty (mkState [[(PStr "p1", session_of 0 "Al")]; []]
                         [(lobby_key, 0%nat); ("1__arena", 1%nat)] []))).2
  = (status (mkState [[(PStr "p1", session_of 0 "Al")]; []]
               [(lobby_key, 0%nat); ("1__arena", 1%nat)] [])).2
  ∧ (status (cleanEmpty (mkState [[(PStr "p1", session_of 0 "Al")]; []]
                           [(lobby_key, 0%nat); ("1__arena", 1%nat)] []))).1 = 1.
Proof.
  destruct (X3_cleanEmpty_keeps_populated_rooms
              (mkState [[(PStr "p1", session_of 0 "Al")]; []]
                 [(lobby_key, 0%nat); ("1__arena", 1%nat)] []))
    as (_ & Hrooms & Hplayers).
  - refine (bool_decide_unpack (NoDup _) _). vm_compute. exact I.
  - split; [exact Hplayers|]. rewrite Hrooms. reflexivity.
Defined.

Lemma cleanEmpty_unregisters s key r :
  (key, r) ∈ rooms s → JSMap.size (deref s r) = 0 →
  JSMap.get key (rooms (cleanEmpty s)) = None.
Proof.
  intros Hin Hz. destruct (JSMap.get key (rooms (cleanEmpty s))) as [r'|] eqn:Hg; [|done].
  apply get_Some_elem_of in Hg. unfold cleanEmpty in Hg. simpl in Hg.
  apply cleanEmpty_fold_elem_of in Hg as [_ Hne]. by destruct (Hne r Hin).
Qed.

(** X4.  A connection that has not joined keeps its room object when a
    cleanup pass drops the (empty) room from the registry; the next
    connection with the same key is given a fresh room, so the two
    connections hold different rooms under one key. *)
Theorem X4_cleanup_strands_waiting_connection s c cn game room_ :
  conns s !! c = Some cn →
  (roomKey cn, room cn) ∈ rooms s →
  (room cn < length (heap s))%nat →
  deref s (room cn) = [] →
  roomKey cn = param_or game "unknown" +:+ "__" +:+ param_or room_ "default" →
  let s' := on_connection (cleanEmpty s) game room_ in
  conns s' !! c = Some cn
  ∧ conns s' !! length (conns s)
    = Some (mkConnection (length (heap s)) (roomKey cn) PNull OPEN)
  ∧ length (heap s) ≠ room cn
  ∧ JSMap.get (roomKey cn) (rooms s') = Some (length (heap s))
  ∧ deref s' (room cn) = [] ∧ deref s' (length (heap s)) = [].
Proof.
  intros Hc Hin Hlt Hnil Hkey s'.
  assert (JSMap.get (roomKey cn) (rooms (cleanEmpty s)) = None) as Hnone.
  { apply (cleanEmpty_unregisters s _ (room cn)); [done|]. by rewrite Hnil. }
  unfold s', on_connection, getRoom. rewrite <-Hkey, Hnone. cbn [heap rooms conns cleanEmpty].
  split_and!.
  - by apply lookup_app_l_Some.
  - by rewrite list_lookup_middle.
  - lia.
  - apply get_set_eq.
  - rewrite deref_alloc. exact Hnil.
  - unfold deref. cbn [heap]. by rewrite list_lookup_middle.
Qed.

Lemma X4_cleanup_strands_waiting_connection_witness :
  conns (on_connection (cleanEmpty (on_connection initial (Some "1") (Some "lobby")))
           (Some "1") (Some "lobby")) !! 0%nat
  = Some (mkConnection 0 lobby_key PNull OPEN)
  ∧ conns (on_connection (cleanEmpty (on_connection initial (Some "1") (Some "lobby")))
             (Some "1") (Some "lobby")) !! 1%nat
    = Some (mkConnection 1 lobby_key PNull OPEN).
Proof.
  destruct (X4_cleanup_strands_waiting_connection
              (on_connection initial (Some "1") (Some "lobby")) 0
              (mkConnection 0 lobby_key PNull OPEN) (Some "1") (Some "lobby"))
    as (H0 & H1 & _).
  - reflexivity.
  - vm_compute. left.
  - vm_compute. lia.
  - reflexivity.
  - reflexivity.
  - split; [exact H0|exact H1].
Defined.

Lemma set_absent {K V} `{EqDecision K} (k : K) (v : V) (m : list (K * V)) :
  JSMap.get k m = None → JSMap.set k v m = m ++ [(k, v)].
Proof.
  induction m as [|[k' v'] m IH]; simpl; [done|].
  destruct (decide (k' = k)); [done|]. intros Hg. by rewrite IH.
Qed.

Lemma players_fold_ext s1 s2 (l : list (string * nat)) a :
  (∀ r, deref s1 r = deref s2 r) →
  foldl (λ a kr, a + JSMap.size (deref s1 kr.2)) a l
  = foldl (λ a kr, a + JSMap.size (deref s2 kr.2)) a l.
Proof.
  intros Hd. revert a. induction l as [|[k r] l IH]; intros a; simpl; [done|].
  by rewrite Hd, IH.
Qed.

(** X5.  The status counts a room from the moment a connection names its
    key, before anyone has joined: a connection with a key that is not
    registered raises the room count by one and leaves the player count; a
    connection with a registered key changes neither. *)
Theorem X5_connection_registers_empty_room s game room_ :
  let key := param_or game "unknown" +:+ "__" +:+ param_or room_ "default" in
  (JSMap.get key (rooms s) = None →
   status (on_connection s game room_) = ((status s).1 + 1, (status s).2))
  ∧ (is_Some (JSMap.get key (rooms s)) → status (on_connection s game room_) = status s).
Proof.
  intros key. unfold on_connection, getRoom. fold key. split.
  - intros Hnone. rewrite Hnone. unfold status. cbn [heap rooms conns fst snd].
    rewrite (set_absent _ _ _ Hnone). f_equal.
    + unfold JSMap.size. rewrite length_app. simpl. lia.
    + rewrite foldl_app. simpl.
      replace (deref _ (length (heap s))) with ([] : Room).
      * rewrite Z.add_0_r. apply players_fold_ext. intros r. rewrite deref_alloc. by destruct s.
      * unfold deref. cbn [heap]. by rewrite list_lookup_middle.
  - intros [r Hr]. rewrite Hr. done.
Qed.

Lemma run_reachable m s evs s' out :
  reachable m s → run m s evs = Some (s', out) → reachable m s'.
Proof.
  revert s out. induction evs as [|ev evs IH]; intros s out Hs; simpl.
  - by intros [= <- _].
  - destruct (step m s ev) as [[s1 out1]|] eqn:Hstep; [|done].
    destruct (run m s1 evs) as [[s2 out2]|] eqn:Hrun; [|done]. intros [= <- _].
    eapply IH; [|exact Hrun]. by eapply reachable_step.
Qed.

(** X6.  In every reachable state the registry has one entry per key, every
    entry names an allocated room, no room is registered under two keys, and
    every connection that captured a registered room was opened with the key
    the room is registered under. *)
Theorem X6_registry_well_formed m s :
  reachable m s →
  NoDup (JSMap.keys (rooms s))
  ∧ (∀ key r, (key, r) ∈ rooms s → is_Some (heap s !! r))
  ∧ (∀ k1 k2 r, (k1, r) ∈ rooms s → (k2, r) ∈ rooms s → k1 = k2)
  ∧ (∀ key r c cn, (key, r) ∈ rooms s → conns s !! c = Some cn → room cn = r →
       roomKey cn = key).
Proof.
  intros Hreach. pose proof (reachable_invariant m s Hreach) as Hinv. split_and!.
  - by eapply reachable_registry_NoDup.
  - intros key r Hin. apply lookup_lt_is_Some. by apply (inv_registry _ Hinv key r).
  - apply (inv_registry_inj _ Hinv).
  - intros key r c cn Hin Hc <-. destruct (inv_registry _ Hinv key _ Hin) as [_ Hk].
    apply (Hk c). by apply wiring_lookup.
Qed.

Lemma X6_registry_well_formed_witness : NoDup (JSMap.keys (rooms lobby_one_joined)).
Proof.
  destruct (X6_registry_well_formed (Some 50) lobby_one_joined
              (run_reachable _ _ _ _ _ (reachable_initial _) lobby_one_joined_reachable))
    as (Hnd & _).
  exact Hnd.
Defined.

(** ** The handlers *)

Lemma conns_alter_lookup (f : Connection → Connection) (cs : list Connection) c0 c cn :
  cs !! c = Some cn →
  alter f c0 cs !! c = Some (if decide (c0 = c) then f cn else cn).
Proof.
  intros Hc. rewrite list_lookup_alter. destruct (decide (c0 = c)) as [->|]; by rewrite ?Hc.
Qed.

Lemma on_close_conns s c : conns (on_close s c).1 = conns s.
Proof.
  unfold on_close. destruct (conns s !! c) as [cn|]; [|done].
  destruct (negb (prim_truthy (playerId cn))); [done|].
  by destruct (JSMap.get (playerId cn) (deref s (room cn))).
Qed.

Lemma on_error_conns s c : conns (on_error s c).1 = conns s.
Proof.
  unfold on_error. destruct (conns s !! c) as [cn|]; [|done]. simpl.
  by destruct (prim_truthy (playerId cn)).
Qed.


Lemma on_message_conn m s c0 raw s' out c cn :
  on_message m s c0 raw = Some (s', out) → conns s !! c = Some cn →
  ∃ cn', conns s' !! c = Some cn' ∧ room cn' = room cn ∧ roomKey cn' = roomKey cn
         ∧ (playerId cn' ≠ playerId cn →
            c0 = c ∧ ∃ uname, raw = Join (playerId cn') uname).
Proof.
  intros Hm Hc. unfold on_message in Hm.
  destruct (conns s !! c0) as [cn0|] eqn:Hc0; [|injection Hm as <- _; by exists cn].
  destruct raw as [| |pid uname|d|ev d|]; try (injection Hm as <- _; by exists cn); [done| |].
  - destruct (at_capacity m _); [|destruct (printable _); [|done]];
      injection Hm as <- _; simpl.
    + rewrite (conns_alter_lookup _ _ _ _ _ (conns_alter_lookup _ _ _ _ _ Hc)).
      destruct (decide (c0 = c)) as [->|]; eexists; split_and!; try done. simpl. eauto.
    + rewrite (conns_alter_lookup _ _ _ _ _ Hc).
      destruct (decide (c0 = c)) as [->|]; eexists; split_and!; try done. simpl. eauto.
  - destruct (prim_truthy (playerId cn0)); [|injection Hm as <- _; by exists cn].
    destruct (JSMap.get _ _); injection Hm as <- _; by exists cn.
Qed.

(** X8.  No event moves a connection: after any step every connection is
    still there, with the room object and the key it captured when it was
    accepted, and its recorded [playerId] has changed only if the event was a
    join message on that very connection. *)
Theorem X8_connection_keeps_its_room m s ev s' out c cn :
  step m s ev = Some (s', out) → conns s !! c = Some cn →
  ∃ cn', conns s' !! c = Some cn' ∧ room cn' = room cn ∧ roomKey cn' = roomKey cn
         ∧ (playerId cn' ≠ playerId cn → ∃ uname, ev = EvMessage c (Join (playerId cn') uname)).
Proof.
  intros Hstep Hc. destruct ev as [g r|c0 raw|c0|c0|]; simpl in Hstep; [| | | |done].
  - injection Hstep as <- _. exists cn. split_and!; try done.
    unfold on_connection. destruct (getRoom s _ _) as [[s1 r1] k1] eqn:Hg. simpl.
    apply lookup_app_l_Some.
    replace (conns s1) with (conns s); [done|].
    unfold getRoom in Hg. destruct (JSMap.get _ (rooms s)); by injection Hg as <- _ _.
  - destruct (on_message_conn m s c0 raw s' out c cn Hstep Hc)
      as (cn' & Hc' & Hr & Hk & Hp).
    exists cn'. split_and!; try done. intros Hne.
    destruct (Hp Hne) as [-> [uname ->]]. by exists uname.
  - injection Hstep as Hstep.
    assert (conns s' = conns (set_readyState s c0 (λ _, CLOSED))) as ->.
    { change s' with (s', out).1. rewrite <-Hstep. apply on_close_conns. }
    simpl. rewrite (conns_alter_lookup _ _ _ _ _ Hc).
    destruct (decide (c0 = c)); eexists; by split_and!.
  - injection Hstep as Hstep.
    assert (conns s' = conns (set_readyState s c0 (λ _, CLOSING))) as ->.
    { change s' with (s', out).1. rewrite <-Hstep. apply on_error_conns. }
    simpl. rewrite (conns_alter_lookup _ _ _ _ _ Hc).
    destruct (decide (c0 = c)); eexists; by split_and!.
Qed.

Lemma X8_connection_keeps_its_room_witness :
  ∃ cn', conns lobby_two_joined !! 0%nat = Some cn' ∧ room cn' = 0%nat
         ∧ roomKey cn' = lobby_key.
Proof.
  destruct (X8_connection_keeps_its_room (Some 50) lobby_one_joined
              (EvMessage 1 (Join (PStr "p2") (jstr "Bo"))) lobby_two_joined
              [(1%nat, MsgRoomState [mkPlayerEntry (PStr "p1") (jstr "Al") ∅]);
               (0%nat, MsgPlayerJoined (PStr "p2") (jstr "Bo"))]
              0 (mkConnection 0 lobby_key (PStr "p1") OPEN))
    as (cn' & Hc' & Hr & Hk & _).
  - vm_compute. reflexivity.
  - reflexivity.
  - exists cn'. split; [exact Hc'|]. split; [exact Hr|exact Hk].
Defined.

Lemma is_open_closed s c c' st :
  st ≠ OPEN → is_open (set_readyState s c (λ _, st)) c' = true →
  c' ≠ c ∧ is_open s c' = true.
Proof.
  intros Hst. unfold is_open, set_readyState. simpl. rewrite list_lookup_alter.
  destruct (decide (c = c')) as [->|Hne].
  - intros Ho. apply bool_decide_eq_true in Ho.
    destruct (conns s !! c') as [cn|]; simpl in Ho; [|done]. by injection Ho.
  - intros Ho. split; [by intros ->|done].
Qed.

(** X9.  Frames only go to sockets that were OPEN when the event arrived, and
    the close and error handlers send nothing to the connection they run
    for. *)
Theorem X9_frames_reach_open_sockets m s ev s' out c' msg :
  step m s ev = Some (s', out) → (c', msg) ∈ out →
  is_open s c' = true ∧ ev ≠ EvClose c' ∧ ev ≠ EvError c'.
Proof.
  intros Hstep Hin. destruct ev as [g r|c raw|c|c|]; simpl in Hstep; [| | | |done].
  - injection Hstep as _ <-. by apply elem_of_nil in Hin.
  - split; [|done]. unfold on_message in Hstep.
    destruct (conns s !! c) as [cn|]; [|injection Hstep as _ <-; by apply elem_of_nil in Hin].
    destruct raw as [| |pid uname|d|ev d|];
      try (injection Hstep as _ <-; by apply elem_of_nil in Hin); [done| | |].
    + assert (∀ msg0, (c', msg) ∈ sendTo (set_playerId s c pid) c msg0 →
              is_open s c' = true) as Hsend.
      { intros msg0. unfold sendTo. rewrite is_open_set_playerId.
        destruct (is_open s c) eqn:Ho; [|by intros ?%elem_of_nil].
        by intros [= -> _]%list_elem_of_singleton. }
      destruct (at_capacity m _); [|destruct (printable _); [|done]];
        injection Hstep as _ <-; [by eapply Hsend|].
      apply elem_of_app in Hin as [Hin|Hin]; [by eapply Hsend|].
      apply elem_of_broadcast in Hin as (_ & _ & _ & _ & _ & _ & Ho).
      by rewrite is_open_store, is_open_set_playerId in Ho.
    + destruct (prim_truthy (playerId cn));
        [|injection Hstep as _ <-; by apply elem_of_nil in Hin].
      destruct (JSMap.get _ _); injection Hstep as _ <-; [|by apply elem_of_nil in Hin].
      by apply elem_of_broadcast in Hin as (_ & _ & _ & _ & _ & _ & Ho).
    + injection Hstep as _ <-.
      by apply elem_of_broadcast in Hin as (_ & _ & _ & _ & _ & _ & Ho).
  - injection Hstep as Hstep.
    assert (is_open (set_readyState s c (λ _, CLOSED)) c' = true) as Ho.
    { replace out with (on_close (set_readyState s c (λ _, CLOSED)) c).2 in Hin
        by (by rewrite Hstep).
      unfold on_close in Hin. destruct (conns _ !! c) as [cn|]; [|by apply elem_of_nil in Hin].
      destruct (negb _); [by apply elem_of_nil in Hin|].
      destruct (JSMap.get _ _); [|by apply elem_of_nil in Hin]. simpl in Hin.
      by apply elem_of_broadcast in Hin as (_ & _ & _ & _ & _ & _ & Ho). }
    apply is_open_closed in Ho as [Hne Ho]; [|done]. split_and!; [done| |done].
    by intros [= ->].
  - injection Hstep as Hstep.
    pose proof (on_error_silent (set_readyState s c (λ _, CLOSING)) c) as Hnil.
    rewrite Hstep in Hnil. simpl in Hnil. subst out. by apply elem_of_nil in Hin.
Qed.

Lemma X9_frames_reach_open_sockets_witness :
  is_open lobby_one_joined 1 = true.
Proof.
  destruct (X9_frames_reach_open_sockets (Some 50) lobby_one_joined
              (EvMessage 1 (Join (PStr "p2") (jstr "Bo"))) lobby_two_joined
              [(1%nat, MsgRoomState [mkPlayerEntry (PStr "p1") (jstr "Al") ∅]);
               (0%nat, MsgPlayerJoined (PStr "p2") (jstr "Bo"))]
              1 (MsgRoomState [mkPlayerEntry (PStr "p1") (jstr "Al") ∅]))
    as (Ho & _).
  - vm_compute. reflexivity.
  - left.
  - exact Ho.
Defined.

Lemma store_deref_id s r : store s r (deref s r) = s.
Proof.
  destruct (heap s !! r) as [rm|] eqn:Hr.
  - unfold store. rewrite (deref_Some _ _ _ Hr), list_insert_id by done. by destruct s.
  - by apply deref_store_None.
Qed.

Lemma delete_delete {K V} `{EqDecision K} (k : K) (m : list (K * V)) :
  JSMap.delete k (JSMap.delete k m) = JSMap.delete k m.
Proof.
  unfold JSMap.delete. apply filter_all. by intros x [? _]%list_elem_of_filter.
Qed.

Lemma delete_absent {K V} `{EqDecision K} (k : K) (m : list (K * V)) :
  JSMap.get k m = None → JSMap.delete k m = m.
Proof.
  intros Hg%get_None_not_elem_of. unfold JSMap.delete. apply filter_all.
  intros [k' v] Hin Heq. simpl in Heq. subst k'. apply Hg.
  apply list_elem_of_fmap. by exists (k, v).
Qed.

Lemma delete_set_absent {K V} `{EqDecision K} (k : K) (v : V) (m : list (K * V)) :
  JSMap.get k m = None → JSMap.delete k (JSMap.set k v m) = m.
Proof.
  intros Hg. rewrite (set_absent _ _ _ Hg). unfold JSMap.delete.
  rewrite filter_app, filter_cons_False, filter_nil, app_nil_r by (simpl; by intros ?).
  by apply (delete_absent k m).
Qed.

Lemma on_close_again s c s1 :
  conns s1 = conns s → (∀ cn, conns s !! c = Some cn → prim_truthy (playerId cn) = true →
                          JSMap.get (playerId cn) (deref s1 (room cn)) = None) →
  cleanEmpty s1 = s1 ∨ (∀ cn, conns s !! c = Some cn → prim_truthy (playerId cn) = false) →
  on_close s1 c = (s1, []).
Proof.
  intros Hcs Hgone Hclean. unfold on_close. rewrite Hcs.
  destruct (conns s !! c) as [cn|] eqn:Hc; [|done].
  destruct (prim_truthy (playerId cn)) eqn:Ht; simpl; [|done].
  rewrite (Hgone cn eq_refl Ht). destruct Hclean as [->|Hf]; [done|].
  specialize (Hf cn eq_refl). congruence.
Qed.

(** X10.  Running the close handler a second time, or after the error
    handler, does nothing: the state stays and no frame is sent, so a
    connection is announced as gone at most once, and not at all when its
    socket reported an error first.  The error handler is idempotent too. *)
Theorem X10_second_close_is_silent s c :
  on_close (on_close s c).1 c = ((on_close s c).1, [])
  ∧ on_close (on_error s c).1 c = ((on_error s c).1, [])
  ∧ on_error (on_error s c).1 c = ((on_error s c).1, []).
Proof.
  split_and!.
  - apply (on_close_again s); [apply on_close_conns| |].
    + intros cn Hc Ht. unfold on_close. rewrite Hc, Ht. simpl.
      destruct (JSMap.get (playerId cn) (deref s (room cn))) eqn:Hg; simpl.
      * rewrite deref_cleanEmpty, deref_store_delete. apply get_delete_eq.
      * by rewrite deref_cleanEmpty.
    + unfold on_close. destruct (conns s !! c) as [cn|] eqn:Hc; [|by right].
      destruct (prim_truthy (playerId cn)) eqn:Ht; simpl; [|right; congruence].
      left. destruct (JSMap.get (playerId cn) (deref s (room cn))); simpl;
        apply cleanEmpty_idempotent.
  - apply (on_close_again s); [apply on_error_conns| |].
    + intros cn Hc Ht. unfold on_error. rewrite Hc, Ht. simpl.
      rewrite deref_cleanEmpty, deref_store_delete. apply get_delete_eq.
    + unfold on_error. destruct (conns s !! c) as [cn|] eqn:Hc; [|by right]. simpl.
      left. apply cleanEmpty_idempotent.
  - unfold on_error at 1. rewrite on_error_conns.
    unfold on_error. destruct (conns s !! c) as [cn|] eqn:Hc; [|done]. simpl.
    destruct (prim_truthy (playerId cn)) eqn:Ht.
    + rewrite deref_cleanEmpty, deref_store_delete, delete_delete.
      rewrite <-(deref_store_delete s (room cn) (playerId cn)) at 2.
      rewrite <-(deref_cleanEmpty (store s (room cn) _)), store_deref_id.
      by rewrite cleanEmpty_idempotent.
    + by rewrite cleanEmpty_idempotent.
Qed.

Lemma store_store s r rm1 rm2 : store (store s r rm1) r rm2 = store s r rm2.
Proof. unfold store. simpl. by rewrite list_insert_insert_eq. Qed.

Lemma store_same s r rm : heap s !! r = Some rm → store s r rm = s.
Proof. intros Hr. unfold store. rewrite list_insert_id by done. by destruct s. Qed.

Lemma on_close_truthy_eq s c cn session :
  conns s !! c = Some cn → prim_truthy (playerId cn) = true →
  JSMap.get (playerId cn) (deref s (room cn)) = Some session →
  on_close s c
  = (cleanEmpty (store s (room cn) (JSMap.delete (playerId cn) (deref s (room cn)))),
     map (λ e, (ws e.2, MsgPlayerLeft (playerId cn) (username session)))
       (filter (recipient s PNull) (JSMap.delete (playerId cn) (deref s (room cn))))).
Proof.
  intros Hc Ht Hg. unfold on_close. rewrite Hc, Ht, Hg. simpl. by rewrite broadcast_filter.
Qed.

Lemma recipient_is_open_ext s1 s2 ex (rm : Room) :
  (∀ c, is_open s1 c = is_open s2 c) →
  filter (recipient s1 ex) rm = filter (recipient s2 ex) rm.
Proof.
  intros Ho. apply filter_ext_elem_of. intros e _. unfold recipient. by rewrite Ho.
Qed.

Lemma is_open_set_readyState_set_playerId s c p f c' :
  is_open (set_readyState (set_playerId s c p) c f) c' = is_open (set_readyState s c f) c'.
Proof.
  unfold is_open, set_readyState, set_playerId. simpl.
  destruct (decide (c = c')) as [->|Hne].
  - rewrite !list_lookup_alter_eq. by destruct (conns s !! c').
  - by rewrite !list_lookup_alter_ne.
Qed.

(** X11.  Joining under a truthy id that is new to the room, with a username
    that the log line of the handler can print, and then closing is a round
    trip on the rooms: every room object holds again exactly what
    it held before the join, and [player_left] goes to the open members the
    room had before (those stored under [null] excepted). *)
Theorem X11_join_then_close_restores_rooms m s c cn rm pid uname :
  conns s !! c = Some cn → heap s !! room cn = Some rm →
  at_capacity m (JSMap.size rm) = false →
  printable (js_or uname (jstr "Player")) = true →
  JSMap.get pid rm = None → prim_truthy pid = true →
  ∃ s1 out1 s2,
    step m s (EvMessage c (Join pid uname)) = Some (s1, out1)
    ∧ JSMap.get pid (deref s1 (room cn)) = Some (mkSession c (js_or uname (jstr "Player")) ∅)
    ∧ step m s1 (EvClose c)
      = Some (s2, map (λ e, (ws e.2, MsgPlayerLeft pid (js_or uname (jstr "Player"))))
                    (filter (recipient (set_readyState s c (λ _, CLOSED)) PNull) rm))
    ∧ heap s2 = heap s
    ∧ deref s2 (room cn) = rm.
Proof.
  intros Hc Hr Hcap Hpr Hnew Ht.
  destruct (join_accepted m s c cn rm pid uname Hc Hr Hcap Hpr) as (Hm & Hd & Hp).
  set (new := mkSession c (js_or uname (jstr "Player")) ∅) in *.
  set (s1 := store (set_playerId s c pid) (room cn) (JSMap.set pid new rm)) in *.
  set (s1c := set_readyState s1 c (λ _, CLOSED)).
  assert (conns s1c !! c = Some (mkConnection (room cn) (roomKey cn) pid CLOSED)) as Hc1.
  { unfold s1c, s1. simpl. by rewrite !list_lookup_alter_eq, Hc. }
  assert (deref s1c (room cn) = JSMap.set pid new rm) as Hd1 by exact Hd.
  pose proof (on_close_truthy_eq s1c c _ new Hc1 Ht) as Hclose.
  simpl in Hclose. rewrite Hd1, get_set_eq, (delete_set_absent _ _ _ Hnew) in Hclose.
  specialize (Hclose eq_refl).
  exists s1. eexists. exists (cleanEmpty (store s1c (room cn) rm)). split_and!.
  - exact Hm.
  - rewrite Hd. apply get_set_eq.
  - simpl. fold s1c. rewrite Hclose. f_equal. f_equal. f_equal.
    apply recipient_is_open_ext. intros c'. unfold s1c, s1.
    change (is_open (set_readyState (store ?a ?b ?d) c ?f) c')
      with (is_open (set_readyState a c f) c').
    apply is_open_set_readyState_set_playerId.
  - simpl. rewrite list_insert_insert_eq. by apply list_insert_id.
  - rewrite deref_cleanEmpty. unfold deref. simpl.
    rewrite list_insert_insert_eq, list_lookup_insert_eq; [done|]. by eapply lookup_lt_Some.
Qed.

Lemma X11_join_then_close_restores_rooms_witness :
  ∃ s1 out1 s2,
    step (Some 50) lobby_one_joined (EvMessage 1 (Join (PStr "p2") (jstr "Bo")))
    = Some (s1, out1)
    ∧ step (Some 50) s1 (EvClose 1)
      = Some (s2, [(0%nat, MsgPlayerLeft (PStr "p2") (jstr "Bo"))])
    ∧ heap s2 = heap lobby_one_joined.
Proof.
  destruct (X11_join_then_close_restores_rooms (Some 50) lobby_one_joined 1
              (mkConnection 0 lobby_key PNull OPEN)
              [(PStr "p1", session_of 0 "Al")] (PStr "p2") (jstr "Bo")
              eq_refl eq_refl eq_refl eq_refl eq_refl eq_refl)
    as (s1 & out1 & s2 & Hj & _ & Hcl & Hh & _).
  exists s1, out1, s2. split; [exact Hj|]. split; [exact Hcl|exact Hh].
Defined.



Lemma set_set {K V} `{EqDecision K} (k : K) (v1 v2 : V) (m : list (K * V)) :
  JSMap.set k v2 (JSMap.set k v1 m) = JSMap.set k v2 m.
Proof.
  induction m as [|[k' v'] m IH]; simpl.
  - by rewrite decide_True.
  - destruct (decide (k' = k)) as [->|Hne]; simpl.
    + by rewrite decide_True.
    + by rewrite decide_False, IH.
Qed.

Lemma filter_recipient_set s k v (rm : Room) :
  filter (recipient s k) (JSMap.set k v rm) = filter (recipient s k) rm.
Proof.
  induction rm as [|[k' v'] rm IH]; simpl.
  - by rewrite filter_cons_False by (by intros [? _]).
  - destruct (decide (k' = k)) as [->|Hne].
    + by rewrite !filter_cons_False by (by intros [? _]).
    + by rewrite !filter_cons, IH.
Qed.

(** A state update of a connection whose id names a session, spelled out. *)
Lemma state_update_accepted m s c cn rm session d :
  conns s !! c = Some cn → heap s !! room cn = Some rm →
  prim_truthy (playerId cn) = true → JSMap.get (playerId cn) rm = Some session →
  let session' := mkSession (ws session) (username session) (spread_merge (data session) d) in
  let s' := store s (room cn) (JSMap.set (playerId cn) session' rm) in
  on_message m s c (StateUpdate d)
  = Some (s', map (λ e, (ws e.2, MsgStateUpdate (playerId cn) (username session) d))
                (filter (recipient s (playerId cn)) rm))
  ∧ heap s' !! room cn = Some (JSMap.set (playerId cn) session' rm)
  ∧ conns s' = conns s.
Proof.
  intros Hc Hr Ht Hg. simpl. unfold on_message.
  rewrite Hc, Ht, (deref_Some _ _ _ Hr), Hg. split_and!; [|simpl|done].
  - rewrite (broadcast_set_same_ws _ _ _ _ _ session) by done. by rewrite broadcast_filter.
  - rewrite list_lookup_insert_eq; [done|]. by eapply lookup_lt_Some.
Qed.

(** X13.  State updates accumulate: after two updates of one session its
    data is the first delta merged over the old data with the second merged
    over that, so for every key the second delta wins, then the first, then
    what was stored.  Sending the same delta twice leaves the state of the
    first time, and both times the same members are sent the delta. *)
Theorem X13_state_updates_accumulate m s c cn rm session d1 d2 :
  conns s !! c = Some cn → heap s !! room cn = Some rm →
  prim_truthy (playerId cn) = true → JSMap.get (playerId cn) rm = Some session →
  ∃ s1 out1 s2 out2,
    on_message m s c (StateUpdate d1) = Some (s1, out1)
    ∧ on_message m s1 c (StateUpdate d2) = Some (s2, out2)
    ∧ JSMap.get (playerId cn) (deref s2 (room cn))
      = Some (mkSession (ws session) (username session)
                (spread_merge (spread_merge (data session) d1) d2))
    ∧ (∀ k, spread_merge (spread_merge (data session) d1) d2 !! k
            = match spread_props d2 !! k with
              | Some v => Some v
              | None => match spread_props d1 !! k with
                        | Some v => Some v
                        | None => data session !! k
                        end
              end)
    ∧ out1.*1 = out2.*1
    ∧ (d2 = d1 → s2 = s1).
Proof.
  intros Hc Hr Ht Hg.
  destruct (state_update_accepted m s c cn rm session d1 Hc Hr Ht Hg) as (Hm1 & Hr1 & Hc1).
  set (session1 := mkSession (ws session) (username session) (spread_merge (data session) d1))
    in *.
  set (s1 := store s (room cn) (JSMap.set (playerId cn) session1 rm)) in *.
  rewrite <-Hc1 in Hc.
  destruct (state_update_accepted m s1 c cn _ session1 d2 Hc Hr1 Ht) as (Hm2 & Hr2 & _).
  { apply get_set_eq. }
  cbv zeta in Hm2, Hr2. simpl ws in Hm2, Hr2. simpl username in Hm2, Hr2.
  simpl data in Hm2, Hr2. exists s1. eexists. eexists. eexists.
  split; [exact Hm1|]. split; [exact Hm2|]. split_and!.
  - rewrite (deref_Some _ _ _ Hr2). apply get_set_eq.
  - intros k. by rewrite !spread_merge_lookup.
  - rewrite filter_recipient_set, <-!list_fmap_compose.
    by rewrite (recipient_is_open_ext s1 s).
  - intros ->. unfold s1. rewrite store_store, set_set. do 3 f_equal.
    unfold session1, spread_merge. simpl.
    by rewrite (assoc_L (∪)), (idemp_L (∪)).
Qed.

Lemma X13_state_updates_accumulate_witness :
  ∃ s1 out1 s2 out2,
    on_message (Some 50) lobby_two_joined 0 (StateUpdate (JObj {[ "x" := jnum 1 ]}))
    = Some (s1, out1)
    ∧ on_message (Some 50) s1 0 (StateUpdate (JObj {[ "x" := jnum 2; "y" := jnum 3 ]}))
      = Some (s2, out2)
    ∧ JSMap.get (PStr "p1") (deref s2 0)
      = Some (mkSession 0 (jstr "Al")
                (spread_merge (spread_merge ∅ (JObj {[ "x" := jnum 1 ]}))
                   (JObj {[ "x" := jnum 2; "y" := jnum 3 ]}))).
Proof.
  destruct (X13_state_updates_accumulate (Some 50) lobby_two_joined 0
              (mkConnection 0 lobby_key (PStr "p1") OPEN)
              [(PStr "p1", session_of 0 "Al"); (PStr "p2", session_of 1 "Bo")]
              (session_of 0 "Al") (JObj {[ "x" := jnum 1 ]})
              (JObj {[ "x" := jnum 2; "y" := jnum 3 ]})
              eq_refl eq_refl eq_refl eq_refl)
    as (s1 & out1 & s2 & out2 & H1 & H2 & Hg & _).
  exists s1, out1, s2, out2. split; [exact H1|]. split; [exact H2|exact Hg].
Defined.

(** X14.  What a state update stores is what the next joiner is shown: after
    an update of the session stored under an id, the [room_state] sent to a
    connection that joins the same room (below capacity, with a username that
    the log line of the handler can print) lists that id with the session's
    username and the merged data. *)
Theorem X14_snapshot_shows_merged_state m s c cn rm session d c2 cn2 pid2 u2 :
  conns s !! c = Some cn → heap s !! room cn = Some rm →
  prim_truthy (playerId cn) = true → JSMap.get (playerId cn) rm = Some session →
  conns s !! c2 = Some cn2 → room cn2 = room cn → readyState cn2 = OPEN →
  at_capacity m (JSMap.size rm) = false →
  printable (js_or u2 (jstr "Player")) = true →
  ∃ s1 out1 s2 players out2,
    on_message m s c (StateUpdate d) = Some (s1, out1)
    ∧ on_message m s1 c2 (Join pid2 u2) = Some (s2, (c2, MsgRoomState players) :: out2)
    ∧ mkPlayerEntry (playerId cn) (username session) (spread_merge (data session) d)
      ∈ players
    ∧ map entry_id players = JSMap.keys rm.
Proof.
  intros Hc Hr Ht Hg Hc2 Hroom Hopen Hcap Hpr.
  destruct (state_update_accepted m s c cn rm session d Hc Hr Ht Hg) as (Hm1 & Hr1 & Hc1).
  set (session1 := mkSession (ws session) (username session) (spread_merge (data session) d))
    in *.
  set (rm1 := JSMap.set (playerId cn) session1 rm) in *.
  set (s1 := store s (room cn) rm1) in *.
  rewrite <-Hc1 in Hc2. rewrite <-Hroom in Hr1.
  assert (JSMap.size rm1 = JSMap.size rm) as Hsize by (unfold rm1; by rewrite size_set, Hg).
  destruct (join_accepted m s1 c2 cn2 rm1 pid2 u2 Hc2 Hr1) as (Hm2 & _);
    [by rewrite Hsize|done|].
  rewrite (sendTo_open _ _ _ _ Hc2 Hopen) in Hm2.
  exists s1. eexists. eexists. eexists. eexists.
  split; [exact Hm1|]. split; [exact Hm2|]. split.
  - apply elem_of_playersList. exists session1. split; [|done]. simpl.
    apply get_Some_elem_of. apply get_set_eq.
  - rewrite playersList_ids. unfold rm1. by rewrite keys_set, Hg.
Qed.

Lemma X14_snapshot_shows_merged_state_witness :
  ∃ s1 out1 s2 players out2,
    on_message (Some 50) lobby_one_joined 0 (StateUpdate (JObj {[ "x" := jnum 1 ]}))
    = Some (s1, out1)
    ∧ on_message (Some 50) s1 1 (Join (PStr "p2") (jstr "Bo"))
      = Some (s2, (1%nat, MsgRoomState players) :: out2)
    ∧ mkPlayerEntry (PStr "p1") (jstr "Al") (spread_merge ∅ (JObj {[ "x" := jnum 1 ]}))
      ∈ players.
Proof.
  destruct (X14_snapshot_shows_merged_state (Some 50) lobby_one_joined 0
              (mkConnection 0 lobby_key (PStr "p1") OPEN)
              [(PStr "p1", session_of 0 "Al")] (session_of 0 "Al")
              (JObj {[ "x" := jnum 1 ]}) 1 (mkConnection 0 lobby_key PNull OPEN)
              (PStr "p2") (jstr "Bo")
              eq_refl eq_refl eq_refl eq_refl eq_refl eq_refl eq_refl eq_refl eq_refl)
    as (s1 & out1 & s2 & players & out2 & H1 & H2 & Hin & _).
  exists s1, out1, s2, players, out2. split; [exact H1|]. split; [exact H2|exact Hin].
Defined.

(** ** Degenerate capacities *)

Lemma rooms_empty_step m s ev s' out :
  m ≤ 0 → Forall (λ rm : Room, rm = []) (heap s) → step (Some m) s ev = Some (s', out) →
  Forall (λ rm : Room, rm = []) (heap s').
Proof.
  intros Hm He.
  assert (∀ r, deref s r = []) as Hd.
  { intros r. unfold deref. destruct (heap s !! r) as [rm|] eqn:Hr; [|done].
    by apply (Forall_lookup_1 _ _ _ _ He Hr). }
  destruct ev as [g r|c raw|c|c|]; simpl; [| | | |done].
  - intros [= <- _]. unfold on_connection, getRoom.
    destruct (JSMap.get _ (rooms s)); simpl; [done|].
    apply Forall_app. split; [done|]. by apply Forall_singleton.
  - unfold on_message. destruct (conns s !! c) as [cn|]; [|by intros [= <- _]].
    destruct raw as [| |pid uname|d|ev d|]; try by intros [= <- _].
    + rewrite deref_set_playerId, Hd. simpl.
      destruct (Z.leb_spec m (JSMap.size ([] : Room))) as [_|Hlt]; [by intros [= <- _]|].
      unfold JSMap.size in Hlt. simpl in Hlt. lia.
    + destruct (prim_truthy (playerId cn)); [|by intros [= <- _]].
      rewrite Hd. simpl. by intros [= <- _].
  - intros [= Heq]. change s' with (s', out).1. rewrite <-Heq. unfold on_close. simpl.
    destruct (alter _ c (conns s) !! c) as [cn|]; [|done].
    destruct (negb (prim_truthy (playerId cn))); [done|].
    change (deref (set_readyState s c (λ _, CLOSED)) (room cn)) with (deref s (room cn)).
    rewrite Hd. simpl. done.
  - intros [= Heq]. change s' with (s', out).1. rewrite <-Heq. unfold on_error. simpl.
    destruct (alter _ c (conns s) !! c) as [cn|]; [|done]. simpl.
    destruct (prim_truthy (playerId cn)); [|done]. simpl.
    change (deref (set_readyState s c (λ _, CLOSING)) (room cn)) with (deref s (room cn)).
    rewrite Hd. by apply Forall_insert.
Qed.

(** X15.  With MAX_PLAYERS zero or negative nobody can join: in every
    reachable state every room is empty, and every join is answered like a
    join to a full room. *)
Theorem X15_no_capacity_no_sessions m s :
  m ≤ 0 → reachable (Some m) s →
  (∀ r rm, heap s !! r = Some rm → rm = [])
  ∧ (∀ c cn pid uname, conns s !! c = Some cn →
       ∃ s', on_message (Some m) s c (Join pid uname)
             = Some (s', sendTo s c (MsgError "Room is full"))
             ∧ heap s' = heap s).
Proof.
  intros Hm Hreach.
  assert (Forall (λ rm : Room, rm = []) (heap s)) as He.
  { induction Hreach as [|s ev s' out _ IH Hstep]; [by apply Forall_nil|].
    by eapply rooms_empty_step. }
  split; [intros r rm Hr; by apply (Forall_lookup_1 _ _ _ _ He Hr)|].
  intros c cn pid uname Hc.
  destruct (reachable_room (Some m) s c cn Hreach Hc) as [Hr _].
  destruct (join_rejected (Some m) s c cn _ pid uname Hc Hr) as (Hj & Hh & _).
  - simpl. apply Z.leb_le. rewrite (Forall_lookup_1 _ _ _ _ He Hr).
    unfold JSMap.size. simpl. lia.
  - eauto.
Qed.

Lemma X15_no_capacity_no_sessions_witness :
  ∃ s', on_message (Some 0) (on_connection initial None None) 0 (Join (PStr "p1") (jstr "Al"))
        = Some (s', [(0%nat, MsgError "Room is full")])
        ∧ heap s' = [[]].
Proof.
  destruct (X15_no_capacity_no_sessions 0 (on_connection initial None None)) as [_ H].
  - lia.
  - apply (reachable_step (Some 0) initial (EvConnection None None) _ []);
      [apply reachable_initial|reflexivity].
  - destruct (H 0%nat (mkConnection 0 "unknown__default" PNull OPEN) (PStr "p1") (jstr "Al")
                eq_refl) as (s' & Hj & Hh).
    exists s'. split; [exact Hj|exact Hh].
Defined.

Lemma crowd_reachable n : reachable None (crowd n).
Proof.
  induction n as [|n IH].
  - apply (reachable_step None initial (EvConnection None None) _ []);
      [apply reachable_initial|reflexivity].
  - assert (crowd (S n)
            = mkState [((λ i : nat, (PNum (Z.of_nat i), mkSession 0 (jstr "Player") ∅))
                          <$> seq 0 n)
                       ++ [(PNum (Z.of_nat n), mkSession 0 (jstr "Player") ∅)]]
                [("unknown__default", 0%nat)]
                [mkConnection 0 "unknown__default" (PNum (Z.of_nat n)) OPEN]) as ->.
    { unfold crowd. by rewrite seq_S, fmap_app. }
    eapply (reachable_step None (crowd n)
              (EvMessage 0 (Join (PNum (Z.of_nat n)) jundefined))); [exact IH|].
    simpl. unfold on_message, store, set_playerId, deref. simpl. rewrite set_absent.
    + reflexivity.
    + apply get_None_not_elem_of. unfold JSMap.keys. rewrite <-list_fmap_compose.
      intros (i & Hi & Hin%elem_of_seq)%list_elem_of_fmap. simpl in Hi.
      injection Hi as Hi. lia.
Qed.

(** X16.  With MAX_PLAYERS not a number the capacity check never fires, so
    rooms are not bounded: for every [n] a reachable state has a room of [n]
    sessions (one connection joining [n] times under new ids suffices). *)
Theorem X16_NaN_capacity_is_unbounded (n : nat) :
  ∃ s rm, reachable None s ∧ heap s !! 0%nat = Some rm ∧ JSMap.size rm = Z.of_nat n.
Proof.
  exists (crowd n), ((λ i : nat, (PNum (Z.of_nat i), mkSession 0 (jstr "Player") ∅)) <$> seq 0 n).
  split_and!; [apply crowd_reachable|done|].
  unfold JSMap.size. by rewrite length_fmap, length_seq.
Qed.

Lemma deref_store s r rm r' :
  deref (store s r rm) r' = if decide (r = r' ∧ is_Some (heap s !! r)) then rm else deref s r'.
Proof.
  case_decide as H.
  - destruct H as [<- [rm0 Hr]]. by apply (deref_store_eq _ _ _ rm0).
  - destruct (decide (r = r')) as [<-|Hne]; [|by apply deref_store_ne].
    rewrite deref_store_None; [done|]. destruct (heap s !! r) eqn:Hr; [|done].
    destruct H. split; [done|by eexists].
Qed.

Lemma keys_delete_sublist {K V} `{EqDecision K} (k : K) (m : list (K * V)) :
  JSMap.keys (JSMap.delete k m) `sublist_of` JSMap.keys m.
Proof. apply fmap_sublist, sublist_filter. Qed.

Lemma deref_on_connection s game room_ r : deref (on_connection s game room_) r = deref s r.
Proof.
  unfold on_connection.
  pose proof (deref_getRoom s (param_or game "unknown") (param_or room_ "default") r) as H.
  by destruct (getRoom s _ _) as [[s1 r1] k1].
Qed.

(** X17.  Only a join adds a session.  After any other event the ids of
    every room are ids it already had, in the same order; after a join the
    ids are the same or have the joiner's id appended. *)
Theorem X17_only_join_adds_sessions m s ev s' out r :
  step m s ev = Some (s', out) →
  JSMap.keys (deref s' r) `sublist_of` JSMap.keys (deref s r)
  ∨ ∃ c pid uname, ev = EvMessage c (Join pid uname)
                   ∧ JSMap.keys (deref s' r) = JSMap.keys (deref s r) ++ [pid].
Proof.
  intros Hstep. destruct ev as [g rk|c raw|c|c|]; simpl in Hstep; [| | | |done].
  - injection Hstep as <- _. left. by rewrite deref_on_connection.
  - unfold on_message in Hstep.
    destruct (conns s !! c) as [cn|]; [|injection Hstep as <- _; by left].
    destruct raw as [| |pid uname|d|ev d|]; try (injection Hstep as <- _; by left); [done| |].
    + rewrite deref_set_playerId in Hstep.
      destruct (at_capacity m _); [|destruct (printable _); [|done]];
        injection Hstep as <- _; [by left|].
      rewrite deref_store. case_decide as Hr; [|by left]. destruct Hr as [<- _].
      rewrite keys_set. change (deref (set_playerId s c pid) (room cn)) with (deref s (room cn)).
      destruct (JSMap.get pid (deref s (room cn))); [by left|right; eauto].
    + destruct (prim_truthy (playerId cn)); [|injection Hstep as <- _; by left].
      destruct (JSMap.get (playerId cn) (deref s (room cn))) eqn:Hg;
        injection Hstep as <- _; [|by left].
      left. rewrite deref_store. case_decide as Hr; [|done]. destruct Hr as [<- _].
      by rewrite keys_set, Hg.
  - injection Hstep as Hstep. left. change s' with (s', out).1. rewrite <-Hstep.
    unfold on_close. destruct (conns _ !! c) as [cn|]; [|done].
    destruct (negb _); [done|]. destruct (JSMap.get _ _); [|done]. simpl.
    rewrite deref_cleanEmpty, deref_store. case_decide as Hr; [|done]. destruct Hr as [<- _].
    apply keys_delete_sublist.
  - injection Hstep as Hstep. left. change s' with (s', out).1. rewrite <-Hstep.
    unfold on_error. destruct (conns _ !! c) as [cn|]; [|done]. simpl.
    destruct (prim_truthy _); [|done].
    rewrite deref_cleanEmpty, deref_store. case_decide as Hr; [|done]. destruct Hr as [<- _].
    apply keys_delete_sublist.
Qed.

Lemma X17_only_join_adds_sessions_witness :
  JSMap.keys (deref lobby_two_joined 0) `sublist_of` JSMap.keys (deref lobby_one_joined 0)
  ∨ ∃ c pid uname,
      EvMessage 1 (Join (PStr "p2") (jstr "Bo")) = EvMessage c (Join pid uname)
      ∧ JSMap.keys (deref lobby_two_joined 0)
        = JSMap.keys (deref lobby_one_joined 0) ++ [pid].
Proof.
  apply (X17_only_join_adds_sessions (Some 50) lobby_one_joined
           (EvMessage 1 (Join (PStr "p2") (jstr "Bo"))) lobby_two_joined
           [(1%nat, MsgRoomState [mkPlayerEntry (PStr "p1") (jstr "Al") ∅]);
            (0%nat, MsgPlayerJoined (PStr "p2") (jstr "Bo"))] 0).
  vm_compute. reflexivity.
Defined.

(** X18.  A broadcast reaches exactly the sockets of the entries stored under
    another id than the excluded one that are open, each with the message
    given; it sends at most one frame per entry of the room, and fewer than
    the room has entries when the excluded id is in the room. *)
Theorem X18_broadcast_recipients s (rm : Room) msg ex :
  (∀ c msg', (c, msg') ∈ broadcast s rm msg ex ↔
     msg' = msg ∧ ∃ id session, (id, session) ∈ rm ∧ id ≠ ex ∧ ws session = c
                                ∧ is_open s c = true)
  ∧ (length (broadcast s rm msg ex) ≤ length rm)%nat
  ∧ (is_Some (JSMap.get ex rm) → (length (broadcast s rm msg ex) < length rm)%nat).
Proof.
  split_and!.
  - intros c msg'. apply elem_of_broadcast.
  - rewrite broadcast_filter, length_map. apply length_filter.
  - intros [session Hg%get_Some_elem_of]. rewrite broadcast_filter, length_map.
    apply length_filter_lt with (x := (ex, session)); [done|]. by intros [? _].
Qed.

Lemma getRoom_registered s gameId roomId :
  JSMap.get (gameId +:+ "__" +:+ roomId) (rooms (getRoom s gameId roomId).1.1)
  = Some (getRoom s gameId roomId).1.2
  ∧ (getRoom s gameId roomId).2 = gameId +:+ "__" +:+ roomId
  ∧ conns (getRoom s gameId roomId).1.1 = conns s.
Proof.
  unfold getRoom.
  destruct (JSMap.get (gameId +:+ "__" +:+ roomId) (rooms s)) as [r|] eqn:Hg;
    cbn [fst snd rooms conns]; split_and!; try done.
  apply get_set_eq.
Qed.

Lemma getRoom_hit s gameId roomId r :
  JSMap.get (gameId +:+ "__" +:+ roomId) (rooms s) = Some r →
  getRoom s gameId roomId = (s, r, gameId +:+ "__" +:+ roomId).
Proof. intros Hg. unfold getRoom. by rewrite Hg. Qed.

(** X19.  Two connections accepted one after the other whose [game] and
    [room] parameters agree once the defaults are filled in (an absent or
    empty [game] is "unknown", an absent or empty [room] is "default")
    capture the same room object under the same key; the second connection
    allocates nothing. *)
Theorem X19_same_parameters_same_room s g1 r1 g2 r2 :
  param_or g1 "unknown" = param_or g2 "unknown" →
  param_or r1 "default" = param_or r2 "default" →
  let s1 := on_connection s g1 r1 in
  let s2 := on_connection s1 g2 r2 in
  ∃ cn1 cn2,
    conns s2 !! length (conns s) = Some cn1
    ∧ conns s2 !! S (length (conns s)) = Some cn2
    ∧ room cn1 = room cn2 ∧ roomKey cn1 = roomKey cn2
    ∧ roomKey cn1 = param_or g1 "unknown" +:+ "__" +:+ param_or r1 "default"
    ∧ heap s2 = heap s1 ∧ rooms s2 = rooms s1.
Proof.
  intros Hg Hr s1 s2. unfold s2, s1, on_connection. rewrite <-Hg, <-Hr.
  destruct (getRoom_registered s (param_or g1 "unknown") (param_or r1 "default"))
    as (Hreg & Hkey & Hconns).
  destruct (getRoom s (param_or g1 "unknown") (param_or r1 "default")) as [[s0 r0] k0].
  cbn [fst snd] in Hreg, Hkey, Hconns. subst k0.
  rewrite (getRoom_hit _ _ _ r0) by exact Hreg. cbn [rooms heap conns].
  rewrite Hconns. do 2 eexists. split_and!.
  - apply lookup_app_l_Some. by apply list_lookup_middle.
  - apply list_lookup_middle. rewrite length_app. simpl. lia.
  - done.
  - done.
  - done.
  - done.
  - done.
Qed.

Lemma X19_same_parameters_same_room_witness :
  ∃ cn1 cn2,
    conns (on_connection (on_connection initial None (Some "lobby")) (Some "") (Some "lobby"))
      !! 0%nat = Some cn1
    ∧ conns (on_connection (on_connection initial None (Some "lobby")) (Some "") (Some "lobby"))
        !! 1%nat = Some cn2
    ∧ room cn1 = room cn2 ∧ roomKey cn1 = "unknown__lobby".
Proof.
  destruct (X19_same_parameters_same_room initial None (Some "lobby") (Some "") (Some "lobby")
              eq_refl eq_refl)
    as (cn1 & cn2 & H1 & H2 & Hr & _ & Hk & _).
  exists cn1, cn2. split; [exact H1|]. split; [exact H2|]. split; [exact Hr|exact Hk].
Defined.

(** ** The heartbeat *)


Lemma elem_of_heartbeat_calls clients c :
  (Terminate c ∈ (heartbeat clients).2 ↔ (c, false) ∈ clients)
  ∧ (Ping c ∈ (heartbeat clients).2 ↔ (c, true) ∈ clients).
Proof.
  unfold heartbeat. simpl. rewrite !list_elem_of_fmap. split; split.
  - intros ([c' b] & Heq & Hin). unfold heartbeat_socket in Heq. destruct b; simpl in Heq;
      [done|]. by injection Heq as ->.
  - intros Hin. by exists (c, false).
  - intros ([c' b] & Heq & Hin). unfold heartbeat_socket in Heq. destruct b; simpl in Heq;
      [|done]. by injection Heq as ->.
  - intros Hin. by exists (c, true).
Qed.



Lemma on_pong_alive c c' clients :
  (c, false) ∉ clients → (c, false) ∉ on_pong c' clients.
Proof.
  intros Hall ([c0 b0] & Heq & Hin)%list_elem_of_fmap. simpl in Heq.
  destruct (decide (c0 = c')); by simplify_eq.
Qed.

Lemma on_pong_sets c clients : (c, false) ∉ on_pong c clients.
Proof.
  intros ([c0 b0] & Heq & Hin)%list_elem_of_fmap. simpl in Heq.
  destruct (decide (c0 = c)); by simplify_eq.
Qed.

Lemma pongs_alive c ps clients :
  (c, false) ∉ clients → (c, false) ∉ foldl (λ l c, on_pong c l) clients ps.
Proof.
  revert clients. induction ps as [|c' ps IH]; intros clients Hall; simpl; [done|].
  apply IH. by apply on_pong_alive.
Qed.

Lemma pongs_set c ps clients :
  c ∈ ps → (c, false) ∉ foldl (λ l c, on_pong c l) clients ps.
Proof.
  revert clients. induction ps as [|c' ps IH]; intros clients Hin; simpl.
  - by apply elem_of_nil in Hin.
  - destruct (decide (c' = c)) as [->|Hne].
    + apply pongs_alive, on_pong_sets.
    + apply IH. apply elem_of_cons in Hin as [->|Hin]; done.
Qed.

(** X21.  A socket whose flag is set and that answers every ping with a pong
    before the next tick is never terminated, however many ticks pass and
    whatever the other sockets do. *)
Theorem X21_answering_socket_is_never_terminated clients pongs c :
  (c, false) ∉ clients →
  Forall (λ ps, c ∈ ps) pongs →
  Terminate c ∉ ticks clients pongs.
Proof.
  intros Hall Hpongs. revert clients Hall.
  induction Hpongs as [|ps pongs Hps _ IH]; intros clients Hall; simpl.
  - apply not_elem_of_nil.
  - rewrite elem_of_app. intros [Hterm|Hterm].
    + by apply elem_of_heartbeat_calls in Hterm.
    + revert Hterm. apply IH. by apply pongs_set.
Qed.

Lemma X21_answering_socket_is_never_terminated_witness :
  Terminate 0 ∉ ticks [(0%nat, true); (1%nat, true)] [[0%nat; 1%nat]; [0%nat]; [0%nat]].
Proof.
  apply (X21_answering_socket_is_never_terminated
           [(0%nat, true); (1%nat, true)] [[0%nat; 1%nat]; [0%nat]; [0%nat]] 0).
  - refine (bool_decide_unpack _ _). vm_compute. exact I.
  - refine (bool_decide_unpack _ _). vm_compute. exact I.
Defined.

(** ** Sessions of reachable states *)

Lemma js_or_truthy a b : js_truthy b = true → js_truthy (js_or a b) = true.
Proof. intros Hb. unfold js_or. by destruct (js_truthy a) eqn:Ha. Qed.

Lemma Forall_set {K V} `{EqDecision K} (P : K * V → Prop) (k : K) (v : V) (m : list (K * V)) :
  Forall P m → P (k, v) → Forall P (JSMap.set k v m).
Proof.
  intros Hm Hkv. apply Forall_forall. intros [k' v'] [->|Hin]%elem_of_set_inv; [done|].
  by apply (proj1 (Forall_forall _ _) Hm).
Qed.

Lemma usernames_deref P s r : usernames P s → Forall (λ e, P (username e.2)) (deref s r).
Proof.
  intros Hn. unfold deref. destruct (heap s !! r) as [rm|] eqn:Hr; [|by apply Forall_nil].
  by apply (Forall_lookup_1 _ _ _ _ Hn Hr).
Qed.

Lemma usernames_delete P s r k :
  usernames P s → usernames P (store s r (JSMap.delete k (deref s r))).
Proof.
  intros Hn. apply Forall_insert; [done|].
  apply Forall_forall. intros e [_ Hin]%list_elem_of_filter.
  by apply (proj1 (Forall_forall _ _) (usernames_deref P s r Hn)).
Qed.

(** What holds of the stored usernames and of the username of every join
    that returns, holds of the stored usernames after a step. *)
Lemma usernames_step (P : jsval → Prop) m s ev s' out :
  (∀ uname, printable (js_or uname (jstr "Player")) = true →
            P (js_or uname (jstr "Player"))) →
  usernames P s → step m s ev = Some (s', out) → usernames P s'.
Proof.
  intros HP Hn. destruct ev as [g r|c raw|c|c|]; simpl; [| | | |done].
  - intros [= <- _]. unfold on_connection, getRoom.
    destruct (JSMap.get _ (rooms s)); simpl; [done|].
    apply Forall_app. split; [done|]. apply Forall_singleton, Forall_nil_2.
  - unfold on_message. destruct (conns s !! c) as [cn|]; [|by intros [= <- _]].
    destruct raw as [| |pid uname|d|ev d|]; try by intros [= <- _].
    + destruct (at_capacity m _); [|destruct (printable _) eqn:Hpr; [|done]];
        intros [= <- _]; [done|].
      apply Forall_insert; [done|]. apply Forall_set; [by apply (usernames_deref P s)|].
      simpl. by apply HP.
    + destruct (prim_truthy (playerId cn)); [|by intros [= <- _]].
      destruct (JSMap.get (playerId cn) (deref s (room cn))) as [session|] eqn:Hg;
        intros [= <- _]; [|done].
      apply Forall_insert; [done|]. apply Forall_set; [by apply usernames_deref|]. simpl.
      apply get_Some_elem_of in Hg.
      by apply (proj1 (Forall_forall _ _) (usernames_deref P s (room cn) Hn) _ Hg).
  - intros [= Heq]. change s' with (s', out).1. rewrite <-Heq. unfold on_close. simpl.
    destruct (alter _ c (conns s) !! c) as [cn|]; [|done].
    destruct (negb (prim_truthy (playerId cn))); [done|].
    match goal with |- context [JSMap.get ?k ?rm] => destruct (JSMap.get k rm) end;
      simpl; [|done].
    by apply (usernames_delete P (set_readyState s c (λ _, CLOSED))).
  - intros [= Heq]. change s' with (s', out).1. rewrite <-Heq. unfold on_error. simpl.
    destruct (alter _ c (conns s) !! c) as [cn|]; [|done]. simpl.
    destruct (prim_truthy (playerId cn)); [|done].
    by apply (usernames_delete P (set_readyState s c (λ _, CLOSING))).
Qed.

Lemma named_step m s ev s' out : named s → step m s ev = Some (s', out) → named s'.
Proof.
  apply (usernames_step (λ v, js_truthy v = true)). intros uname _. by apply js_or_truthy.
Qed.

(** The usernames stored in a reachable state have all been printed by the
    log line of the join that stored them. *)
Lemma reachable_printed m s : reachable m s → printed s.
Proof.
  induction 1 as [|s ev s' out _ IH Hstep]; [by apply Forall_nil|].
  by eapply (usernames_step (λ v, printable v = true)).
Qed.

(** X22.  In every reachable state each session of a room holds the socket
    of a connection that captured that very room, and has a username that is
    truthy: no session is ever stored without a name. *)
Theorem X22_sessions_are_owned_and_named m s r rm p session :
  reachable m s → heap s !! r = Some rm → (p, session) ∈ rm →
  (∃ cn, conns s !! ws session = Some cn ∧ room cn = r)
  ∧ js_truthy (username session) = true.
Proof.
  intros Hreach Hr Hin. split.
  - destruct (inv_owner _ (reachable_invariant m s Hreach) r rm p session Hr Hin) as [k Hk].
    apply wiring_lookup_inv in Hk as (cn & Hc & Hroom & _). by exists cn.
  - assert (named s) as Hn.
    { clear Hr Hin. induction Hreach as [|s ev s' out _ IH Hstep]; [by apply Forall_nil|].
      by eapply named_step. }
    apply (proj1 (Forall_forall _ _) (Forall_lookup_1 _ _ _ _ Hn Hr) _ Hin).
Qed.

Lemma X22_sessions_are_owned_and_named_witness :
  (∃ cn, conns lobby_one_joined !! 0%nat = Some cn ∧ room cn = 0%nat)
  ∧ js_truthy (jstr "Al") = true.
Proof.
  apply (X22_sessions_are_owned_and_named (Some 50) lobby_one_joined 0
           [(PStr "p1", session_of 0 "Al")] (PStr "p1") (session_of 0 "Al")).
  - exact (run_reachable _ _ _ _ _ (reachable_initial _) lobby_one_joined_reachable).
  - reflexivity.
  - left.
Defined.

(** X23.  In every reachable state the username of every stored session is
    one that a template literal can print, so the [console.log] of the close
    handler, which prints the username of the session it deleted, does not
    throw. *)
Theorem X23_stored_usernames_are_printable m s r rm p session :
  reachable m s → heap s !! r = Some rm → (p, session) ∈ rm →
  printable (username session) = true.
Proof.
  intros Hreach%reachable_printed Hr Hin.
  apply (proj1 (Forall_forall _ _) (Forall_lookup_1 _ _ _ _ Hreach Hr) _ Hin).
Qed.

Lemma X23_stored_usernames_are_printable_witness : printable (jstr "Al") = true.
Proof.
  apply (X23_stored_usernames_are_printable (Some 50) lobby_one_joined 0
           [(PStr "p1", session_of 0 "Al")] (PStr "p1") (session_of 0 "Al")).
  - exact (run_reachable _ _ _ _ _ (reachable_initial _) lobby_one_joined_reachable).
  - reflexivity.
  - left.
Defined.
